(** * stocktradingcli: the opening-price-gap analysis of [main.go]

    A shallow embedding of the program's functions ([Load], [Calculate],
    [FetchNews], and the goroutine/channel pipeline of [main]) together with
    the properties the design document states about them.

    Conventions.
    - [float64] is the kernel's binary64 type; every arithmetic operation is
      rounded on its own (round to nearest, ties to even), as the amd64 and
      arm64 code generators do when they do not fuse operations.
    - [int] is the 64-bit signed integer of the 64-bit ports, carried as [Z].
    - A Go call that returns [(T, error)] and leaves the value unused when the
      error is set is a [result T].
    - A Go call may return, panic, or never return: [exec]. *)

From Stdlib Require Import ZArith List String Bool Lia Floats Uint63 PeanoNat.
From Stdlib Require Import Permutation.
Import ListNotations.

Set Warnings "-inexact-float".

Local Open Scope string_scope.
Local Open Scope list_scope.

(* ===================================================================== *)
(** ** Go runtime: results, panics, blocking                              *)
(* ===================================================================== *)

Definition error := string.

(** [(v, nil)] or [(zero, err)]. *)
Inductive result (A : Type) : Type :=
| Val (a : A)
| Err (e : error).
Arguments Val {A} a.
Arguments Err {A} e.

(** What a call does: it returns a value, it panics, or it blocks forever. *)
Inductive exec (A : Type) : Type :=
| Returns (a : A)
| Panics (msg : string)
| Blocks.
Arguments Returns {A} a.
Arguments Panics {A} msg.
Arguments Blocks {A}.

Definition bind {A B : Type} (c : exec A) (k : A -> exec B) : exec B :=
  match c with
  | Returns a => k a
  | Panics msg => Panics msg
  | Blocks => Blocks
  end.

Notation "x <- c ;; k" := (bind c (fun x => k))
  (at level 61, c at next level, right associativity).

(** [s[i]]: a run-time panic when the index is out of range. *)
Definition index {A : Type} (s : list A) (i : nat) : exec A :=
  match nth_error s i with
  | Some a => Returns a
  | None => Panics "index out of range"
  end.

(** [slices.Delete(s, i, j)] removes [s[i:j]]; it panics when [s[i:j]] is not
    a valid slice of [s]. *)
Definition slices_Delete {A : Type} (s : list A) (i j : nat) : exec (list A) :=
  if (i <=? j)%nat && (j <=? List.length s)%nat
  then Returns (firstn i s ++ skipn j s)
  else Panics "slice bounds out of range".

(** [slices.DeleteFunc(s, del)] removes the elements for which [del] holds
    and keeps the others in order. *)
Definition slices_DeleteFunc {A : Type} (s : list A) (del : A -> bool) : list A :=
  filter (fun x => negb (del x)) s.

(* ===================================================================== *)
(** ** float64 and int                                                    *)
(* ===================================================================== *)

Definition float64 := PrimFloat.float.

Definition min_int : Z := - 2 ^ 63.
Definition max_int : Z := 2 ^ 63 - 1.

Definition is_int (z : Z) : bool := ((min_int <=? z) && (z <=? max_int))%Z.

(** The ports the conversion [int(x)] is described for: the language leaves
    the result of an unrepresentable value to the implementation. *)
Inductive arch : Type := amd64 | arm64.

(** The integer part of a finite float, towards zero. *)
Definition trunc (x : float64) : option Z :=
  match Prim2SF x with
  | S754_zero _ => Some 0%Z
  | S754_finite s m e =>
      let a := Z.shiftl (Zpos m) e in
      Some (if s then (- a)%Z else a)
  | S754_infinity _ => None
  | S754_nan => None
  end.

(** [int(x)] for a [float64] [x]. It never panics. When [x] is NaN, infinite
    or out of range, amd64's CVTTSD2SQ gives the "integer indefinite" value
    and arm64's FCVTZS saturates (NaN gives 0). *)
Definition int_of_float64 (t : arch) (x : float64) : Z :=
  match trunc x with
  | Some z =>
      if is_int z then z
      else match t with
           | amd64 => min_int
           | arm64 => if (z <? 0)%Z then min_int else max_int
           end
  | None =>
      match t with
      | amd64 => min_int
      | arm64 =>
          match Prim2SF x with
          | S754_infinity true => min_int
          | S754_infinity false => max_int
          | _ => 0%Z
          end
      end
  end.

(** A natural number below 2^63 as a float, rounded to nearest even. *)
Definition float64_of_nonneg (n : Z) : float64 :=
  if (n <? 2 ^ 63)%Z then PrimFloat.of_uint63 (Uint63.of_Z n)
  else Z.ldexp PrimFloat.one 63.

(** [float64(n)] for an [int] [n]. *)
Definition float64_of_int (n : Z) : float64 :=
  if (n <? 0)%Z then PrimFloat.opp (float64_of_nonneg (- n))
  else float64_of_nonneg n.

(** [math.Abs]. *)
Definition math_Abs (x : float64) : float64 := PrimFloat.abs x.

(** [math.Round]: the nearest integer, halves away from zero;
    [Round(±0) = ±0], [Round(±Inf) = ±Inf], [Round(NaN) = NaN]. *)
Definition math_Round (x : float64) : float64 :=
  match Prim2SF x with
  | S754_finite s m e =>
      if (0 <=? e)%Z then x
      else
        let d := (2 ^ (- e))%Z in
        let q := (Zpos m / d)%Z in
        let r := (Zpos m mod d)%Z in
        let n := if (d <=? 2 * r)%Z then (q + 1)%Z else q in
        let a := float64_of_nonneg n in
        if s then PrimFloat.opp a else a
  | _ => x
  end.

(* ===================================================================== *)
(** ** Data model                                                         *)
(* ===================================================================== *)

Module Stock.
Record t : Type := mk
  { Ticker : string;
    Gap : float64;
    OpeningPrice : float64 }.
End Stock.

Module Position.
Record t : Type := mk
  { EntryPrice : float64;
    Shares : Z;
    TakeProfitPrice : float64;
    StopLossPrice : float64;
    Profit : float64 }.

(** The zero value [Position{}]. *)
Definition zero : t := mk PrimFloat.zero 0 PrimFloat.zero PrimFloat.zero PrimFloat.zero.
End Position.

(** [time.Time], as an opaque instant. *)
Definition Time := Z.

Module Article.
Record t : Type := mk
  { PublishOn : Time;
    Headline : string }.
End Article.

Module Selection.
Record t : Type := mk
  { Ticker : string;
    Position : Position.t;
    Articles : list Article.t }.

(** The zero value [Selection{}]. *)
Definition zero : t := mk "" Position.zero [].
End Selection.

(* ===================================================================== *)
(** ** Calculate                                                          *)
(* ===================================================================== *)

Local Open Scope float_scope.

(** Money in the trading account. *)
Definition accountBalance : float64 := 10000.0.

(** Percentage of balance that may be lost. *)
Definition lossTolerance : float64 := 0.02.

(** Max amount that may be lost per trade. *)
Definition maxLossPerTrade : float64 := accountBalance * lossTolerance.

(** Percentage of the gap taken as profit. *)
Definition profitPercent : float64 := 0.8.

Definition Calculate (t : arch) (gapPercent openingPrice : float64) : Position.t :=
  let closingPrice := openingPrice / (1 + gapPercent) in
  let gapValue := closingPrice - openingPrice in
  let profitFromGap := profitPercent * gapValue in
  let stopLoss := openingPrice - profitFromGap in
  let takeProfit := openingPrice + profitFromGap in
  let shares := int_of_float64 t (maxLossPerTrade / math_Abs (stopLoss - openingPrice)) in
  let profit := math_Abs (openingPrice - takeProfit) * float64_of_int shares in
  let profit := math_Round (profit * 100) / 100 in
  Position.mk
    (math_Round (openingPrice * 100) / 100)
    shares
    (math_Round (takeProfit * 100) / 100)
    (math_Round (stopLoss * 100) / 100)
    (math_Round (profit * 100) / 100).

Local Close Scope float_scope.

(* ===================================================================== *)
(** ** The world outside the program                                      *)
(* ===================================================================== *)

(** A file opened for reading, seen through [csv.NewReader(f).ReadAll()]:
    the records of the file, or a read or parse error. An empty file has no
    record and no error. *)
Record File : Type := { ReadAll : result (list (list string)) }.

Record Request : Type :=
  { Method : string;
    URL : string;
    Header : list (string * string) }.

Record Response : Type :=
  { StatusCode : Z;
    Body : string }.

(** What the news service does with a request. *)
Inductive upstream : Type :=
| Responds (resp : Response)
| Fails (e : error)
| Silent.

(** [http.Client]: [Timeout] limits a request; zero means no timeout. *)
Record Client : Type := { Timeout : Z }.

Module attributes.
Record t : Type := mk
  { PublishOn : Time;
    Title : string }.
End attributes.

Module seekingAlphaNews.
Record t : Type := mk { Attributes : attributes.t }.
End seekingAlphaNews.

Module seekingAlphaResponse.
Record t : Type := mk { Data : list seekingAlphaNews.t }.

Definition zero : t := mk [].
End seekingAlphaResponse.

(** The library and operating-system calls the program makes. *)
Record World : Type :=
  { (** [os.Open(path)] *)
    os_Open : string -> result File;
    (** [strconv.ParseFloat(s, 64)] *)
    strconv_ParseFloat : string -> result float64;
    (** [http.NewRequest(method, url, nil)] with an empty header *)
    http_NewRequest : string -> string -> result Request;
    (** the service behind [client.Do] *)
    roundtrip : Request -> upstream;
    (** [json.NewDecoder(body).Decode(res)]: the value left in [res] and the
        error returned *)
    json_Decode : string -> seekingAlphaResponse.t ->
                  seekingAlphaResponse.t * option error }.

(** [client.Do(req)]. *)
Definition client_Do (w : World) (c : Client) (req : Request) : exec (result Response) :=
  match roundtrip w req with
  | Responds resp => Returns (Val resp)
  | Fails e => Returns (Err e)
  | Silent =>
      if (0 <? Timeout c)%Z
      then Returns (Err "Client.Timeout exceeded while awaiting headers")
      else Blocks
  end.

(** [req.Header.Add(key, value)]. *)
Definition Header_Add (req : Request) (key value : string) : Request :=
  {| Method := Method req; URL := URL req; Header := Header req ++ [(key, value)] |}.

(* ===================================================================== *)
(** ** Load                                                               *)
(* ===================================================================== *)

Section Program.

Variable w : World.
Variable target : arch.

(** The body of [for _, row := range rows], with [stocks] as accumulator. *)
Fixpoint Load_rows (rows : list (list string)) (stocks : list Stock.t)
  : exec (list Stock.t) :=
  match rows with
  | [] => Returns stocks
  | row :: rest =>
      ticker <- index row 0 ;;
      field1 <- index row 1 ;;
      match strconv_ParseFloat w field1 with
      | Err _ => Load_rows rest stocks
      | Val gap =>
          field2 <- index row 2 ;;
          match strconv_ParseFloat w field2 with
          | Err _ => Load_rows rest stocks
          | Val openingPrice =>
              Load_rows rest (stocks ++ [Stock.mk ticker gap openingPrice])
          end
      end
  end.

Definition Load (path : string) : exec (result (list Stock.t)) :=
  match os_Open w path with
  | Err err => Returns (Err err)
  | Val f =>
      match ReadAll f with
      | Err err => Returns (Err err)
      | Val rows =>
          rows <- slices_Delete rows 0 1 ;;
          stocks <- Load_rows rows [] ;;
          Returns (Val stocks)
      end
  end.

(* ===================================================================== *)
(** ** FetchNews                                                          *)
(* ===================================================================== *)

Definition url : string :=
  "https://seeking-alpha.p.rapidapi.com/news/v2/list-by-symbol?size=5&id=".
Definition apiKeyHeader : string := "x-rapidapi-key".
Definition apiKey : string := "your-api-key-here".
Definition http_MethodGet : string := "GET".

(** [fmt.Errorf("unsuccessful status code %d recieved", code)]; the number is
    not rendered. *)
Definition status_error (code : Z) : error := "unsuccessful status code recieved".

(** The body of [for _, item := range res.Data]. *)
Fixpoint collect (items : list seekingAlphaNews.t) (articles : list Article.t)
  : list Article.t :=
  match items with
  | [] => articles
  | item :: rest =>
      let art := Article.mk
                   (attributes.PublishOn (seekingAlphaNews.Attributes item))
                   (attributes.Title (seekingAlphaNews.Attributes item)) in
      collect rest (articles ++ [art])
  end.

Definition FetchNews (ticker : string) : exec (result (list Article.t)) :=
  match http_NewRequest w http_MethodGet (url ++ ticker) with
  | Err err => Returns (Err err)
  | Val req =>
      let req := Header_Add req apiKeyHeader apiKey in
      let client := {| Timeout := 0 |} in
      r <- client_Do w client req ;;
      match r with
      | Err err => Returns (Err err)
      | Val resp =>
          if ((StatusCode resp <? 200) || (299 <? StatusCode resp))%Z
          then Returns (Err (status_error (StatusCode resp)))
          else
            let res := fst (json_Decode w (Body resp) seekingAlphaResponse.zero) in
            Returns (Val (collect (seekingAlphaResponse.Data res) []))
      end
  end.

(* ===================================================================== *)
(** ** main: filter, fan-out, fan-in                                      *)
(* ===================================================================== *)

(** The predicate given to [slices.DeleteFunc]. *)
Definition small_gap (s : Stock.t) : bool :=
  PrimFloat.ltb (math_Abs (Stock.Gap s)) 0.1%float.

(** The stocks [main] keeps, or the error it prints before it returns. *)
Definition candidates : exec (result (list Stock.t)) :=
  r <- Load "./opg.csv" ;;
  match r with
  | Err err => Returns (Err err)
  | Val stocks => Returns (Val (slices_DeleteFunc stocks small_gap))
  end.

(** The goroutine started for stock [s]: the value it sends on the channel. *)
Definition worker (s : Stock.t) : exec Selection.t :=
  let position := Calculate target (Stock.Gap s) (Stock.OpeningPrice s) in
  r <- FetchNews (Stock.Ticker s) ;;
  match r with
  | Err _ => Returns Selection.zero
  | Val articles => Returns (Selection.mk (Stock.Ticker s) position articles)
  end.

End Program.

(* ===================================================================== *)
(** ** The goroutines and the channel of main                             *)
(* ===================================================================== *)

(** Where [main] is: in the [go func] loop with [rest] still to start, in
    [for sel := range selectionsChan], past the loop with [selections] handed
    to [Deliver], or dead after a run-time panic. *)
Inductive main_pc : Type :=
| Spawning (rest : list Stock.t)
| Ranging
| Delivering
| Crashed (msg : string).

(** [goroutines]: the workers started and not yet through their send;
    [buffer], [closed]: the channel; [selections]: the slice main appends to. *)
Record State : Type :=
  { pc : main_pc;
    goroutines : list Stock.t;
    buffer : list Selection.t;
    closed : bool;
    selections : list Selection.t }.

Definition init (stocks : list Stock.t) : State :=
  {| pc := Spawning stocks; goroutines := []; buffer := [];
     closed := false; selections := [] |}.

Definition crash (msg : string) (st : State) : State :=
  {| pc := Crashed msg; goroutines := goroutines st; buffer := buffer st;
     closed := closed st; selections := selections st |}.

Definition remove_nth {A : Type} (i : nat) (l : list A) : list A :=
  firstn i l ++ skipn (S i) l.

(** The scheduler's choice: main runs, or the [i]-th live worker runs. *)
Inductive action : Type :=
| Main
| Worker (i : nat).

Section Pipeline.

Variable w : World.
Variable target : arch.

(** [stocks] is the filtered slice: [len(stocks)] is both the capacity of
    [selectionsChan] and the count main closes the channel at. *)
Variable stocks : list Stock.t.

(** One step of main. [None]: main is blocked or has returned. *)
Definition main_step (st : State) : option State :=
  match pc st with
  | Spawning (stock :: rest) =>
      Some {| pc := Spawning rest; goroutines := goroutines st ++ [stock];
              buffer := buffer st; closed := closed st;
              selections := selections st |}
  | Spawning [] =>
      Some {| pc := Ranging; goroutines := goroutines st; buffer := buffer st;
              closed := closed st; selections := selections st |}
  | Ranging =>
      match buffer st with
      | sel :: buf =>
          let selections' := selections st ++ [sel] in
          if (List.length selections' =? List.length stocks)%nat then
            if closed st then Some (crash "close of closed channel" st)
            else Some {| pc := Ranging; goroutines := goroutines st;
                         buffer := buf; closed := true;
                         selections := selections' |}
          else Some {| pc := Ranging; goroutines := goroutines st;
                       buffer := buf; closed := closed st;
                       selections := selections' |}
      | [] =>
          if closed st
          then Some {| pc := Delivering; goroutines := goroutines st;
                       buffer := []; closed := true;
                       selections := selections st |}
          else None
      end
  | Delivering => None
  | Crashed _ => None
  end.

(** One step of the [i]-th live worker: its whole body, up to and including
    the send. [None]: no such worker, the worker is blocked (in the fetch or
    on a full channel), or the process is over. *)
Definition worker_step (i : nat) (st : State) : option State :=
  match pc st with
  | Delivering => None
  | Crashed _ => None
  | _ =>
      match nth_error (goroutines st) i with
      | None => None
      | Some s =>
          match worker w target s with
          | Blocks => None
          | Panics msg => Some (crash msg st)
          | Returns sel =>
              if closed st then Some (crash "send on closed channel" st)
              else if (List.length (buffer st) <? List.length stocks)%nat
              then Some {| pc := pc st; goroutines := remove_nth i (goroutines st);
                           buffer := buffer st ++ [sel]; closed := false;
                           selections := selections st |}
              else None
          end
      end
  end.

Definition perform (a : action) (st : State) : option State :=
  match a with
  | Main => main_step st
  | Worker i => worker_step i st
  end.

(** A schedule, run from [st]; [None] when it asks for a step that cannot be
    taken. *)
Fixpoint run (schedule : list action) (st : State) : option State :=
  match schedule with
  | [] => Some st
  | a :: rest =>
      match perform a st with
      | Some st' => run rest st'
      | None => None
      end
  end.

Definition step (st st' : State) : Prop := exists a, perform a st = Some st'.

(** The states some schedule reaches from the start of the fan-out. *)
Inductive reachable : State -> Prop :=
| reachable_init : reachable (init stocks)
| reachable_step st st' : reachable st -> step st st' -> reachable st'.

(** [P] holds at the end of every schedule: from [st] every maximal run is
    finite and stops in a state where [P] holds. *)
Inductive inevitably (P : State -> Prop) : State -> Prop :=
| inevitably_now st : (forall a, perform a st = None) -> P st -> inevitably P st
| inevitably_later st :
    (exists a st', perform a st = Some st') ->
    (forall a st', perform a st = Some st' -> inevitably P st') ->
    inevitably P st.

(** Nothing can run and main has not left its loop. *)
Definition stuck (st : State) : Prop :=
  (forall a, perform a st = None) /\ pc st <> Delivering.

(** The selection the worker of [s] sends, when it sends one. *)
Definition sent (s : Stock.t) : Selection.t :=
  match worker w target s with
  | Returns sel => sel
  | _ => Selection.zero
  end.

(** The number of steps left, at most. *)
Definition fuel (st : State) : nat :=
  match pc st with
  | Spawning rest => 3 * List.length rest + 2
  | Ranging => 1
  | Delivering => 0
  | Crashed _ => 0
  end + 2 * List.length (goroutines st) + List.length (buffer st).

End Pipeline.

(* ===================================================================== *)
(** ** What the design document says Load returns                         *)
(* ===================================================================== *)

(** The stock of a data row whose two numeric fields parse. *)
Definition parsed_row (w : World) (row : list string) : option Stock.t :=
  match row with
  | ticker :: gap :: openingPrice :: _ =>
      match strconv_ParseFloat w gap, strconv_ParseFloat w openingPrice with
      | Val g, Val o => Some (Stock.mk ticker g o)
      | _, _ => None
      end
  | _ => None
  end.

(** The stocks of the rows that parse, in file order. *)
Definition parsed_rows (w : World) (rows : list (list string)) : list Stock.t :=
  flat_map (fun row => match parsed_row w row with
                       | Some s => [s]
                       | None => []
                       end) rows.

(** The article of one item of the response's data array. *)
Definition article_of (item : seekingAlphaNews.t) : Article.t :=
  Article.mk (attributes.PublishOn (seekingAlphaNews.Attributes item))
             (attributes.Title (seekingAlphaNews.Attributes item)).

(* ===================================================================== *)
(** ** Test doubles                                                       *)
(* ===================================================================== *)

Fixpoint lookup {A : Type} (table : list (string * A)) (key : string) : option A :=
  match table with
  | [] => None
  | (k, v) :: rest => if String.eqb k key then Some v else lookup rest key
  end.

(** The decimal strings the test files use, with the float
    [strconv.ParseFloat] gives for each; anything else is a syntax error. *)
Definition floats : list (string * float64) :=
  [ ("0.15", 0.15%float); ("100", 100%float); ("0.05", 0.05%float);
    ("50", 50%float); ("-0.2", (-0.2)%float); ("37.5", 37.5%float);
    ("0.5", 0.5%float); ("NaN", PrimFloat.nan) ].

Definition stub_ParseFloat (s : string) : result float64 :=
  match lookup floats s with
  | Some x => Val x
  | None => Err "strconv.ParseFloat: parsing: invalid syntax"
  end.

Definition item (published : Time) (title : string) : seekingAlphaNews.t :=
  seekingAlphaNews.mk (attributes.mk published title).

(** Response bodies, by name, with what the decoder makes of each. A body
    that is not listed is not JSON: the decoder leaves [res] as it was and
    returns a syntax error. *)
Definition payloads : list (string * list seekingAlphaNews.t) :=
  [ ("aaa.json", [item 1700000000%Z "AAA beats estimates"; item 1700000600%Z "AAA raises guidance"]);
    ("ddd.json", [item 1700000300%Z "DDD recalls product"]);
    ("none.json", []) ].

Definition stub_Decode (body : string) (res : seekingAlphaResponse.t)
  : seekingAlphaResponse.t * option error :=
  match lookup payloads body with
  | Some data => (seekingAlphaResponse.mk data, None)
  | None => (res, Some "invalid character looking for beginning of value")
  end.

(** A world with the file [file] at ./opg.csv and the news service
    [service], keyed by ticker. *)
Definition stub_world (file : result File) (service : list (string * upstream)) : World :=
  {| os_Open := fun path =>
       if String.eqb path "./opg.csv" then file
       else Err "open: no such file or directory";
     strconv_ParseFloat := stub_ParseFloat;
     http_NewRequest := fun method u =>
       Val {| Method := method; URL := u; Header := [] |};
     roundtrip := fun req =>
       match lookup (map (fun '(ticker, up) => ((url ++ ticker)%string, up)) service) (URL req) with
       | Some up => up
       | None => Fails "dial tcp: no such host"
       end;
     json_Decode := stub_Decode |}.

Definition csv (rows : list (list string)) : result File :=
  Val {| ReadAll := Val rows |}.

Definition opg_rows : list (list string) :=
  [ ["Ticker"; "Gap"; "OpeningPrice"];
    ["AAA"; "0.15"; "100"];
    ["BBB"; "0.05"; "50"];
    ["CCC"; "n/a"; "10"];
    ["DDD"; "-0.2"; "37.5"];
    ["EEE"; "0.5"; ""] ].

Definition ok (body : string) : upstream :=
  Responds {| StatusCode := 200; Body := body |}.

(** Every fetch succeeds. *)
Definition world_up : World :=
  stub_world (csv opg_rows) [("AAA", ok "aaa.json"); ("DDD", ok "ddd.json")].

(** Every fetch fails: no host answers. *)
Definition world_down : World := stub_world (csv opg_rows) [].

(** The service answers for DDD and never answers for AAA. *)
Definition world_silent : World :=
  stub_world (csv opg_rows) [("AAA", Silent); ("DDD", ok "ddd.json")].

(** The service answers 200 with a body that is not JSON. *)
Definition world_garbled : World :=
  stub_world (csv opg_rows) [("AAA", ok "<html>Bad Gateway</html>")].

(** A file with nothing in it. *)
Definition world_empty : World := stub_world (csv []) [].

(** A file with a single column. *)
Definition world_narrow : World := stub_world (csv [ ["Ticker"]; ["AAA"] ]) [].

(** A file with a gap that is not a number. *)
Definition world_nan : World :=
  stub_world (csv [ ["Ticker"; "Gap"; "OpeningPrice"]; ["ZZZ"; "NaN"; "100"] ]) [].

Definition AAA : Stock.t := Stock.mk "AAA" 0.15%float 100%float.
Definition DDD : Stock.t := Stock.mk "DDD" (-0.2)%float 37.5%float.
Definition ZZZ : Stock.t := Stock.mk "ZZZ" PrimFloat.nan 100%float.

(** Batches of any size with distinct tickers: A, AA, AAA, ... *)
Fixpoint ticker_of (n : nat) : string :=
  match n with
  | O => ""
  | S n => ("A" ++ ticker_of n)%string
  end.

Definition batch (n : nat) : list Stock.t :=
  map (fun k => Stock.mk (ticker_of k) 0.5%float 100%float) (seq 1 n).

(** Two schedules for the batch [AAA; DDD]: main starts both workers, then
    the workers send in starting order, or in the opposite order, and main
    receives both selections and leaves its loop. *)
Definition in_order : list action :=
  [Main; Main; Main; Worker 0; Worker 0; Main; Main; Main].
Definition out_of_order : list action :=
  [Main; Main; Main; Worker 1; Worker 0; Main; Main; Main].

(** Main starts both workers, DDD's worker sends, main receives. *)
Definition until_stall : list action := [Main; Main; Main; Worker 1; Main].

(* ===================================================================== *)
(** ** The invariant of the fan-out and fan-in                            *)
(* ===================================================================== *)

(** The stocks main has still to start a worker for. *)
Definition unstarted (st : State) : list Stock.t :=
  match pc st with
  | Spawning rest => rest
  | _ => []
  end.

(** Every stock is in exactly one place: its worker is not started, or is
    live, or has sent (the stocks [finished], in the order of their sends,
    whose selections are those received and those in the channel). The
    channel is closed only once main has received [len(stocks)] selections,
    and main leaves its loop only on a closed, drained channel. *)
Record accounted (w : World) (target : arch) (stocks : list Stock.t)
  (finished : list Stock.t) (st : State) : Prop :=
  { acc_places : Permutation stocks (finished ++ goroutines st ++ unstarted st);
    acc_sent : Forall2 (fun s sel => worker w target s = Returns sel)
                 finished (selections st ++ buffer st);
    acc_closed : closed st = true ->
                 List.length (selections st) = List.length stocks;
    acc_open : closed st = false -> stocks <> [] ->
               (List.length (selections st) < List.length stocks)%nat;
    acc_left : pc st = Delivering -> closed st = true /\ buffer st = [];
    acc_alive : forall msg, pc st <> Crashed msg }.

(* ===================================================================== *)
(** ** Deliver                                                            *)
(* ===================================================================== *)

(** The files on disk: the content at each path, if there is a file. *)
Definition Disk := string -> option string.

Definition write_file (d : Disk) (path content : string) : Disk :=
  fun p => if String.eqb p path then Some content else d p.

(** The calls [Deliver] makes outside the program. *)
Record Sink : Type :=
  { (** [os.Create(path)]: the error when the file cannot be created *)
    os_Create : string -> option error;
    (** the JSON text of selections whose numbers are all finite, or the
        encoder's error *)
    json_Marshal : list Selection.t -> result string;
    (** [file.Write(text)]: what reached the file, and the error when the
        write fails *)
    file_Write : string -> string * option error }.

(** Neither NaN nor an infinity. *)
Definition is_finite (x : float64) : bool :=
  match Prim2SF x with
  | S754_nan => false
  | S754_infinity _ => false
  | _ => true
  end.

(** The floats of a selection: the four prices of its position. *)
Definition encodable (sel : Selection.t) : bool :=
  is_finite (Position.EntryPrice (Selection.Position sel))
  && is_finite (Position.TakeProfitPrice (Selection.Position sel))
  && is_finite (Position.StopLossPrice (Selection.Position sel))
  && is_finite (Position.Profit (Selection.Position sel)).

Definition newline : string := String (Ascii.ascii_of_nat 10) EmptyString.

(** [encoder.Encode(selections)] up to the write: the text to write, the
    JSON followed by a newline. A NaN or an infinity is an unsupported value:
    the encoder returns an error and writes nothing. *)
Definition Encode (k : Sink) (selections : list Selection.t) : result string :=
  if forallb encodable selections then
    match json_Marshal k selections with
    | Val text => Val (text ++ newline)%string
    | Err err => Err err
    end
  else Err "json: unsupported value".

(** [Deliver(filePath, selections)]: the error returned and the disk left.
    [os.Create] truncates the file when it exists. *)
Definition Deliver (k : Sink) (filePath : string) (selections : list Selection.t)
  (d : Disk) : option error * Disk :=
  match os_Create k filePath with
  | Some err => (Some ("error creating file: " ++ err)%string, d)
  | None =>
      let d := write_file d filePath "" in
      match Encode k selections with
      | Err err => (Some ("error encoding selections: " ++ err)%string, d)
      | Val text =>
          match file_Write k text with
          | (written, Some err) =>
              (Some ("error encoding selections: " ++ err)%string,
               write_file d filePath written)
          | (_, None) => (None, write_file d filePath text)
          end
      end
  end.

(* ===================================================================== *)
(** ** main, from the file to the file                                    *)
(* ===================================================================== *)

(** How a run of [main] ends: it printed [Load]'s error and returned; it
    died of a run-time panic; it is blocked for ever in the range loop with
    [collected] in hand; or it called [Deliver] on [delivered], with the
    error [Deliver] returned. *)
Inductive ending : Type :=
| LoadFailed (err : error)
| Panicked (msg : string)
| Hung (collected : list Selection.t)
| Finished (delivered : list Selection.t) (err : option error).

Definition is_none {A : Type} (o : option A) : bool :=
  match o with
  | None => true
  | Some _ => false
  end.

(** Neither main nor any live worker can take a step. *)
Definition idle (w : World) (target : arch) (stocks : list Stock.t) (st : State) : bool :=
  is_none (main_step stocks st)
  && forallb (fun i => is_none (worker_step w target stocks i st))
       (seq 0 (List.length (goroutines st))).

(** [main] under the schedule [schedule], from the disk [d]: how it ends and
    the disk it leaves. [None]: [schedule] is not a complete run. *)
Definition main (w : World) (k : Sink) (target : arch) (schedule : list action)
  (d : Disk) : option (ending * Disk) :=
  match candidates w with
  | Panics msg => Some (Panicked msg, d)
  | Blocks => Some (Hung [], d)
  | Returns (Err err) => Some (LoadFailed err, d)
  | Returns (Val stocks) =>
      match run w target stocks schedule (init stocks) with
      | None => None
      | Some st =>
          match pc st with
          | Delivering =>
              let (err, d') := Deliver k "./opg.json" (selections st) d in
              Some (Finished (selections st) err, d')
          | Crashed msg => Some (Panicked msg, d)
          | _ =>
              if idle w target stocks st then Some (Hung (selections st), d)
              else None
          end
      end
  end.

(** Whether the worker of [s] gets to its send. *)
Definition returns (w : World) (target : arch) (s : Stock.t) : bool :=
  match worker w target s with
  | Returns _ => true
  | _ => false
  end.

(** The end of a run: main holds the selections of the candidates whose
    worker got to its send, and is out of its loop exactly when that is all
    of them. *)
Definition ended (w : World) (target : arch) (stocks : list Stock.t)
  (st : State) : Prop :=
  Permutation (selections st) (map (sent w target) (filter (returns w target) stocks))
  /\ (pc st = Delivering \/ pc st = Ranging)
  /\ (pc st = Delivering <-> forallb (returns w target) stocks = true).

(** A data row the loop of [Load] cannot get through: it has no field, or
    one field, or two fields the second of which parses, so that the loop
    goes on to the third. *)
Definition short_row (w : World) (row : list string) : bool :=
  match row with
  | [] => true
  | [_] => true
  | [_; gap] =>
      match strconv_ParseFloat w gap with
      | Val _ => true
      | Err _ => false
      end
  | _ => false
  end.

(** A file of two columns whose gaps do not parse. *)
Definition world_two_columns : World :=
  stub_world (csv [ ["Ticker"; "Gap"]; ["AAA"; "n/a"]; ["BBB"; "-"] ]) [].



(** A sink that works: every file can be created and written, and the
    encoding of a list is a text that names its tickers in order. *)
Definition render (selections : list Selection.t) : string :=
  String.concat "," (map Selection.Ticker selections).

Definition sink_ok : Sink :=
  {| os_Create := fun _ => None;
     json_Marshal := fun selections => Val (render selections);
     file_Write := fun text => (text, None) |}.

(** The directory cannot be written. *)
Definition sink_readonly : Sink :=
  {| os_Create := fun _ => Some "open ./opg.json: permission denied";
     json_Marshal := fun selections => Val (render selections);
     file_Write := fun text => (text, None) |}.

(** The disk is full: the file is created and no byte reaches it. *)
Definition sink_full : Sink :=
  {| os_Create := fun _ => None;
     json_Marshal := fun selections => Val (render selections);
     file_Write := fun _ => ("", Some "write ./opg.json: no space left on device") |}.

(** A disk that holds the output of an earlier run. *)
Definition disk_old : Disk := write_file (fun _ => None) "./opg.json" "old".

(** A candidate whose gap makes the closing price a division by zero, and a
    service that has news for it; a file whose only stock has a small gap. *)
Definition GGG : Stock.t := Stock.mk "GGG" (-1)%float 100%float.

Definition world_degenerate : World :=
  stub_world (csv opg_rows) [("GGG", ok "none.json")].

Definition world_small : World :=
  stub_world (csv [ ["Ticker"; "Gap"; "OpeningPrice"]; ["BBB"; "0.05"; "50"] ]) [].

Definition world_missing : World :=
  stub_world (Err "open ./opg.csv: no such file or directory") [].

(* ===================================================================== *)
(** * Properties                                                          *)
(* ===================================================================== *)

(** ** Lists *)

Lemma remove_nth_split {A : Type} (l1 l2 : list A) (x : A) :
  remove_nth (List.length l1) (l1 ++ x :: l2) = l1 ++ l2.
Proof.
  unfold remove_nth. induction l1 as [|a l1 IH]; simpl.
  - reflexivity.
  - f_equal. exact IH.
Qed.

Lemma remove_nth_Permutation {A : Type} (l : list A) (i : nat) (x : A) :
  nth_error l i = Some x -> Permutation l (x :: remove_nth i l).
Proof.
  intros H. apply nth_error_split in H as (l1 & l2 & -> & <-).
  rewrite remove_nth_split. symmetry. apply Permutation_middle.
Qed.

Lemma remove_nth_length {A : Type} (l : list A) (i : nat) (x : A) :
  nth_error l i = Some x -> S (List.length (remove_nth i l)) = List.length l.
Proof.
  intros H. apply remove_nth_Permutation in H.
  apply Permutation_length in H. simpl in H. congruence.
Qed.

Lemma Forall2_map_eq {A B : Type} (R : A -> B -> Prop) (f : A -> B) (l : list A) (l' : list B) :
  (forall a b, R a b -> b = f a) -> Forall2 R l l' -> l' = map f l.
Proof.
  intros HR H. induction H; simpl; [reflexivity|].
  f_equal; auto.
Qed.

(** ** The worker never panics *)

Lemma FetchNews_never_panics (w : World) (ticker : string) (msg : string) :
  FetchNews w ticker <> Panics msg.
Proof.
  unfold FetchNews, client_Do.
  destruct (http_NewRequest w http_MethodGet (url ++ ticker)) as [req|e]; [|discriminate].
  destruct (roundtrip w _) as [resp|e|]; simpl; try discriminate.
  destruct ((StatusCode resp <? 200)%Z || (299 <? StatusCode resp)%Z); discriminate.
Qed.

Lemma worker_never_panics (w : World) (target : arch) (s : Stock.t) (msg : string) :
  worker w target s <> Panics msg.
Proof.
  unfold worker.
  destruct (FetchNews w (Stock.Ticker s)) as [[articles|e]|m|] eqn:E; simpl; try discriminate.
  exfalso. exact (FetchNews_never_panics _ _ _ E).
Qed.

(** ** The invariant holds in every reachable state *)

Section Accounting.

Variable w : World.
Variable target : arch.
Variable stocks : list Stock.t.

Lemma accounted_lengths finished st :
  accounted w target stocks finished st ->
  List.length stocks
  = (List.length finished + List.length (goroutines st) + List.length (unstarted st))%nat
  /\ List.length finished
     = (List.length (selections st) + List.length (buffer st))%nat.
Proof.
  intros [Hp Hs _ _ _ _]. split.
  - apply Permutation_length in Hp. rewrite !length_app in Hp. lia.
  - apply Forall2_length in Hs. rewrite length_app in Hs. exact Hs.
Qed.

Lemma accounted_init : accounted w target stocks [] (init stocks).
Proof.
  constructor; simpl.
  - reflexivity.
  - constructor.
  - discriminate.
  - intros _ H. destruct stocks; [congruence | simpl; lia].
  - discriminate.
  - discriminate.
Qed.

Lemma accounted_main finished st st' :
  accounted w target stocks finished st ->
  main_step stocks st = Some st' ->
  accounted w target stocks finished st'.
Proof.
  intros Hacc Hstep.
  pose proof (accounted_lengths _ _ Hacc) as [Hlen1 Hlen2].
  destruct Hacc as [Hp Hs Hc Ho Hl Ha].
  unfold main_step in Hstep. unfold unstarted in *.
  destruct (pc st) as [[|stock rest]| | |msg] eqn:Epc; try discriminate.
  - (* the go loop is over *)
    injection Hstep as <-. constructor; simpl; auto; try discriminate.
  - (* go func(stock) *)
    injection Hstep as <-. constructor; simpl; auto; try discriminate.
    rewrite <- app_assoc. simpl. exact Hp.
  - (* a receive, or the end of the range loop *)
    destruct (buffer st) as [|sel buf] eqn:Ebuf.
    + destruct (closed st) eqn:Ecl; [|discriminate].
      injection Hstep as <-. constructor; simpl; auto; try discriminate.
    + simpl in Hlen2.
      destruct (List.length (selections st ++ [sel]) =? List.length stocks)%nat eqn:En.
      * apply Nat.eqb_eq in En. rewrite length_app in En. simpl in En.
        destruct (closed st) eqn:Ecl.
        { specialize (Hc eq_refl). lia. }
        injection Hstep as <-. constructor; simpl; auto; try discriminate.
        -- rewrite <- app_assoc. exact Hs.
        -- intros _. rewrite length_app. simpl. exact En.
      * apply Nat.eqb_neq in En. rewrite length_app in En. simpl in En.
        injection Hstep as <-. constructor; simpl; auto; try discriminate.
        -- rewrite <- app_assoc. exact Hs.
        -- intros Hcl. specialize (Hc Hcl). lia.
        -- intros Hcl Hne. specialize (Ho Hcl Hne). rewrite length_app. simpl. lia.
Qed.

Lemma accounted_worker finished st st' i :
  accounted w target stocks finished st ->
  worker_step w target stocks i st = Some st' ->
  exists s, nth_error (goroutines st) i = Some s /\
            accounted w target stocks (finished ++ [s]) st'.
Proof.
  intros Hacc Hstep.
  pose proof (accounted_lengths _ _ Hacc) as [Hlen1 Hlen2].
  destruct Hacc as [Hp Hs Hc Ho Hl Ha].
  unfold worker_step in Hstep.
  assert (Hstep' :
            match nth_error (goroutines st) i with
            | None => None
            | Some s =>
                match worker w target s with
                | Blocks => None
                | Panics msg => Some (crash msg st)
                | Returns sel =>
                    if closed st then Some (crash "send on closed channel" st)
                    else if (List.length (buffer st) <? List.length stocks)%nat
                         then Some {| pc := pc st;
                                      goroutines := remove_nth i (goroutines st);
                                      buffer := buffer st ++ [sel]; closed := false;
                                      selections := selections st |}
                         else None
                end
            end = Some st').
  { destruct (pc st); try exact Hstep; discriminate. }
  clear Hstep.
  destruct (nth_error (goroutines st) i) as [s|] eqn:Enth; [|discriminate].
  exists s. split; [reflexivity|].
  destruct (worker w target s) as [sel|msg|] eqn:Ew; [| |discriminate].
  2:{ exfalso. exact (worker_never_panics _ _ _ _ Ew). }
  assert (Hg : (0 < List.length (goroutines st))%nat).
  { apply remove_nth_length in Enth. lia. }
  destruct (closed st) eqn:Ecl.
  { specialize (Hc eq_refl). lia. }
  destruct (List.length (buffer st) <? List.length stocks)%nat; [|discriminate].
  injection Hstep' as <-.
  constructor; simpl; auto; try discriminate.
  - unfold unstarted; simpl. fold (unstarted st).
    rewrite Hp. rewrite <- app_assoc. apply Permutation_app_head. simpl.
    apply (remove_nth_Permutation _ _ _) in Enth.
    rewrite (Permutation_app_tail (unstarted st) Enth). reflexivity.
  - rewrite app_assoc. apply Forall2_app; [exact Hs|]. constructor; [exact Ew|constructor].
  - intros E. apply Hl in E. destruct E; discriminate.
Qed.

Lemma accounted_step finished st st' :
  accounted w target stocks finished st -> step w target stocks st st' ->
  exists finished', accounted w target stocks finished' st'.
Proof.
  intros Hacc [[|i] Hstep]; simpl in Hstep.
  - exists finished. eapply accounted_main; eauto.
  - destruct (accounted_worker _ _ _ _ Hacc Hstep) as (s & _ & H). eauto.
Qed.

Lemma accounted_reachable st :
  reachable w target stocks st ->
  exists finished, accounted w target stocks finished st.
Proof.
  induction 1 as [|st st' _ [finished IH] Hstep].
  - exists []. apply accounted_init.
  - eapply accounted_step; eauto.
Qed.

End Accounting.

(** ** Runs are finite, and end with main out of its loop *)

Section Runs.

Variable w : World.
Variable target : arch.
Variable stocks : list Stock.t.

Lemma fuel_decreases a st st' :
  perform w target stocks a st = Some st' -> (fuel st' < fuel st)%nat.
Proof.
  destruct a as [|i]; simpl; unfold main_step, worker_step, fuel, crash.
  - destruct (pc st) as [[|stock rest]| | |msg]; try discriminate.
    + intros [= <-]. simpl. lia.
    + intros [= <-]. simpl. rewrite length_app. simpl. lia.
    + destruct (buffer st) as [|sel buf].
      * destruct (closed st); [|discriminate]. intros [= <-]. simpl. lia.
      * destruct (_ =? _)%nat; [destruct (closed st)|]; intros [= <-]; simpl; lia.
  - intros H.
    assert (H' : exists s, nth_error (goroutines st) i = Some s).
    { destruct (pc st); try discriminate;
        (destruct (nth_error (goroutines st) i); [eauto | discriminate]). }
    destruct H' as [s Enth]. rewrite Enth in H.
    pose proof (remove_nth_length _ _ _ Enth) as Hlen.
    destruct (pc st) as [rest| | |msg]; try discriminate;
      (destruct (worker w target s); [|injection H as <-; simpl; lia|discriminate]);
      (destruct (closed st); [injection H as <-; simpl; lia|]);
      (destruct (_ <? _)%nat; [|discriminate]);
      injection H as <-; simpl; rewrite length_app; simpl; lia.
Qed.

Lemma Delivering_is_final a st :
  pc st = Delivering -> perform w target stocks a st = None.
Proof.
  intros H. destruct a; simpl; unfold main_step, worker_step; rewrite H; reflexivity.
Qed.

(** What main holds when it leaves the loop: the selections of all the
    stocks, in the order the workers sent them. *)
Lemma accounted_Delivering finished st :
  accounted w target stocks finished st -> pc st = Delivering ->
  Permutation stocks finished /\ selections st = map (sent w target) finished.
Proof.
  intros Hacc Hpc.
  pose proof (accounted_lengths _ _ _ _ _ Hacc) as [Hlen1 Hlen2].
  destruct Hacc as [Hp Hs Hc Ho Hl Ha].
  destruct (Hl Hpc) as [Hcl Hbuf]. specialize (Hc Hcl).
  unfold unstarted in *. rewrite Hpc in *. rewrite Hbuf in *.
  simpl in *. rewrite app_nil_r in *.
  assert (Hg : goroutines st = []).
  { destruct (goroutines st); [reflexivity | simpl in *; lia]. }
  rewrite Hg, app_nil_r in Hp. split; [exact Hp|].
  eapply Forall2_map_eq; [|exact Hs].
  intros s sel E. unfold sent. rewrite E. reflexivity.
Qed.

Lemma progress finished st :
  stocks <> [] ->
  (forall s, In s stocks -> exists sel, worker w target s = Returns sel) ->
  accounted w target stocks finished st ->
  pc st <> Delivering ->
  exists a st', perform w target stocks a st = Some st'.
Proof.
  intros Hne Hret Hacc Hpc.
  pose proof (accounted_lengths _ _ _ _ _ Hacc) as [Hlen1 Hlen2].
  destruct Hacc as [Hp Hs Hc Ho Hl Ha].
  destruct (pc st) as [[|stock rest]| | |msg] eqn:Epc.
  - exists Main. simpl. unfold main_step. rewrite Epc. eauto.
  - exists Main. simpl. unfold main_step. rewrite Epc. eauto.
  - destruct (buffer st) as [|sel buf] eqn:Ebuf.
    + destruct (closed st) eqn:Ecl.
      * exists Main. simpl. unfold main_step. rewrite Epc, Ebuf, Ecl. eauto.
      * specialize (Ho eq_refl Hne).
        unfold unstarted in *. rewrite Epc in *. simpl in *.
        destruct (goroutines st) as [|s g] eqn:Eg; [simpl in *; lia|].
        assert (Hin : In s stocks).
        { eapply Permutation_in; [symmetry; exact Hp|].
          apply in_or_app. right. left. reflexivity. }
        destruct (Hret s Hin) as [sel Ew].
        exists (Worker 0). simpl. unfold worker_step. rewrite Epc, Eg. simpl.
        rewrite Ew, Ecl, Ebuf. simpl.
        destruct stocks; [congruence|]. simpl. eauto.
    + exists Main. simpl. unfold main_step. rewrite Epc, Ebuf.
      destruct (_ =? _)%nat; [destruct (closed st)|]; eauto.
  - congruence.
  - exfalso. exact (Ha msg eq_refl).
Qed.

Lemma inevitably_Delivering n : forall finished st,
  stocks <> [] ->
  (forall s, In s stocks -> exists sel, worker w target s = Returns sel) ->
  (fuel st <= n)%nat ->
  accounted w target stocks finished st ->
  inevitably w target stocks
    (fun st' => pc st' = Delivering /\
                Permutation (selections st') (map (sent w target) stocks))
    st.
Proof.
  induction n as [|n IH]; intros finished st Hne Hret Hfuel Hacc.
  - destruct (pc st) eqn:Epc;
      try (unfold fuel in Hfuel; rewrite Epc in Hfuel; lia).
    + apply inevitably_now.
      * intros a. apply Delivering_is_final. exact Epc.
      * split; [exact Epc|].
        destruct (accounted_Delivering _ _ Hacc Epc) as [Hp ->].
        apply Permutation_map. symmetry. exact Hp.
    + exfalso. exact (acc_alive _ _ _ _ _ Hacc _ Epc).
  - destruct (pc st) eqn:Epc.
    1,2: apply inevitably_later;
      [ eapply progress; eauto; congruence
      | intros a st' Hstep;
        destruct (accounted_step _ _ _ _ _ _ Hacc (ex_intro _ a Hstep)) as [finished' Hacc'];
        apply (IH finished'); auto;
        apply fuel_decreases in Hstep; lia ].
    + apply inevitably_now.
      * intros a. apply Delivering_is_final. exact Epc.
      * split; [exact Epc|].
        destruct (accounted_Delivering _ _ Hacc Epc) as [Hp ->].
        apply Permutation_map. symmetry. exact Hp.
    + exfalso. exact (acc_alive _ _ _ _ _ Hacc _ Epc).
Qed.

Lemma run_reachable schedule : forall st st',
  reachable w target stocks st ->
  run w target stocks schedule st = Some st' ->
  reachable w target stocks st'.
Proof.
  induction schedule as [|a schedule IH]; intros st st' Hr Hrun; simpl in Hrun.
  - injection Hrun as <-. exact Hr.
  - destruct (perform w target stocks a st) as [st1|] eqn:E; [|discriminate].
    apply (IH st1); [|exact Hrun].
    eapply reachable_step; [exact Hr|]. exists a. exact E.
Qed.

(** Main can start every worker before any of them gets to run. *)
Lemma all_started : forall rest g,
  reachable w target stocks
    {| pc := Spawning rest; goroutines := g; buffer := []; closed := false;
       selections := [] |} ->
  reachable w target stocks
    {| pc := Spawning []; goroutines := g ++ rest; buffer := []; closed := false;
       selections := [] |}.
Proof.
  induction rest as [|s rest IH]; intros g H.
  - rewrite app_nil_r. exact H.
  - replace (g ++ s :: rest) with ((g ++ [s]) ++ rest)
      by (rewrite <- app_assoc; reflexivity).
    apply IH. eapply reachable_step; [exact H|].
    exists Main. reflexivity.
Qed.

End Runs.

Lemma inevitably_weaken (w : World) (target : arch) (stocks : list Stock.t)
  (P Q : State -> Prop) (st : State) :
  (forall st', P st' -> Q st') ->
  inevitably w target stocks P st -> inevitably w target stocks Q st.
Proof.
  intros HPQ H. induction H as [st Hno HP | st Hex _ IH].
  - apply inevitably_now; auto.
  - apply inevitably_later; auto.
Qed.

(** ** What the worker sends *)

Lemma worker_fetch_returns (w : World) (target : arch) (s : Stock.t) r :
  FetchNews w (Stock.Ticker s) = Returns r ->
  exists sel, worker w target s = Returns sel.
Proof.
  intros E. unfold worker. rewrite E. simpl. destruct r; eauto.
Qed.

Lemma sent_fetched (w : World) (target : arch) (s : Stock.t) articles :
  FetchNews w (Stock.Ticker s) = Returns (Val articles) ->
  sent w target s =
  Selection.mk (Stock.Ticker s)
    (Calculate target (Stock.Gap s) (Stock.OpeningPrice s)) articles.
Proof.
  intros E. unfold sent, worker. rewrite E. reflexivity.
Qed.

Lemma sent_failed (w : World) (target : arch) (s : Stock.t) e :
  FetchNews w (Stock.Ticker s) = Returns (Err e) ->
  sent w target s = Selection.zero.
Proof.
  intros E. unfold sent, worker. rewrite E. reflexivity.
Qed.

(* ===================================================================== *)
(** ** The pipeline: one selection per candidate                          *)
(* ===================================================================== *)

(** C1, as the code has it. For a batch of at least one surviving candidate
    whose fetches all return (with articles or with an error), every
    schedule of main and the workers is finite and ends with main out of its
    loop holding exactly [len(stocks)] selections: a permutation of what the
    workers send, one per candidate. A worker whose fetch succeeded sends the
    candidate's ticker, position and articles; a worker whose fetch failed
    sends the zero [Selection{}], whose ticker is empty. *)
Theorem pipeline_one_selection_per_candidate
  (w : World) (target : arch) (stocks : list Stock.t) :
  stocks <> [] ->
  (forall s, In s stocks -> exists r, FetchNews w (Stock.Ticker s) = Returns r) ->
  inevitably w target stocks
    (fun st => pc st = Delivering /\
               List.length (selections st) = List.length stocks /\
               Permutation (selections st) (map (sent w target) stocks))
    (init stocks)
  /\ (forall s,
         sent w target s =
         match FetchNews w (Stock.Ticker s) with
         | Returns (Val articles) =>
             Selection.mk (Stock.Ticker s)
               (Calculate target (Stock.Gap s) (Stock.OpeningPrice s)) articles
         | _ => Selection.zero
         end).
Proof.
  intros Hne Hret. split.
  - eapply inevitably_weaken.
    2:{ apply (inevitably_Delivering w target stocks (fuel (init stocks)) []); auto.
        - intros s Hin. destruct (Hret s Hin) as [r E].
          eapply worker_fetch_returns; eauto.
        - apply accounted_init. }
    intros st [Hpc Hperm]. repeat split; auto.
    apply Permutation_length in Hperm. rewrite length_map in Hperm. exact Hperm.
  - intros s. unfold sent, worker.
    destruct (FetchNews w (Stock.Ticker s)) as [[articles|e]|msg|]; reflexivity.
Qed.

Lemma pipeline_one_selection_per_candidate_witness :
  inevitably world_down amd64 [AAA; DDD]
    (fun st => pc st = Delivering /\
               List.length (selections st) = 2%nat /\
               Permutation (selections st) (map (sent world_down amd64) [AAA; DDD]))
    (init [AAA; DDD])
  /\ sent world_down amd64 AAA = Selection.zero
  /\ sent world_down amd64 DDD = Selection.zero.
Proof.
  destruct (pipeline_one_selection_per_candidate world_down amd64 [AAA; DDD])
    as [Hrun Hsent].
  - discriminate.
  - intros s [<-|[<-|[]]]; eexists; vm_compute; reflexivity.
  - split; [exact Hrun|]. split; rewrite Hsent; vm_compute; reflexivity.
Defined.

(** C1, as stated, fails when fetches fail: with two candidates and no host
    answering, a complete run leaves main with two selections that carry the
    same, empty, identifier, and neither candidate's ticker. *)
Lemma pipeline_repeats_empty_identifier :
  (forall s, In s [AAA; DDD] ->
             exists e, FetchNews world_down (Stock.Ticker s) = Returns (Err e))
  /\ exists st,
       reachable world_down amd64 [AAA; DDD] st /\
       pc st = Delivering /\
       map Selection.Ticker (selections st) = [""; ""] /\
       ~ NoDup (map Selection.Ticker (selections st)) /\
       ~ In (Stock.Ticker AAA) (map Selection.Ticker (selections st)).
Proof.
  split.
  - intros s [<-|[<-|[]]]; eexists; vm_compute; reflexivity.
  - destruct (run world_down amd64 [AAA; DDD] in_order (init [AAA; DDD]))
      as [st|] eqn:E; [|vm_compute in E; discriminate].
    exists st. split.
    + eapply run_reachable; [apply reachable_init | exact E].
    + vm_compute in E. injection E as <-. simpl.
      repeat split.
      * intros H. inversion H as [|x l Hnin _]. apply Hnin. left. reflexivity.
      * intros [H|[H|[]]]; discriminate.
Qed.


(* ===================================================================== *)
(** ** A failed fetch                                                     *)
(* ===================================================================== *)

(** C2, as the code has it. A worker whose fetch fails does not stop the
    pipeline: it sends the zero [Selection{}] (empty ticker, zero position,
    no article), which neither names the candidate nor carries the position
    computed for it. So when the fetch fails for every candidate of a
    non-empty batch, every run ends with [len(stocks)] zero selections. *)
Theorem failed_fetch_sends_zero_selection (w : World) (target : arch) :
  (forall s e,
      FetchNews w (Stock.Ticker s) = Returns (Err e) ->
      worker w target s = Returns Selection.zero)
  /\ (forall stocks,
         stocks <> [] ->
         (forall s, In s stocks ->
                    exists e, FetchNews w (Stock.Ticker s) = Returns (Err e)) ->
         inevitably w target stocks
           (fun st => pc st = Delivering /\
                      selections st = repeat Selection.zero (List.length stocks))
           (init stocks)).
Proof.
  split.
  - intros s e E. unfold worker. rewrite E. reflexivity.
  - intros stocks Hne Hfail.
    eapply inevitably_weaken.
    2:{ apply (inevitably_Delivering w target stocks (fuel (init stocks)) []); auto.
        - intros s Hin. destruct (Hfail s Hin) as [e E].
          eapply worker_fetch_returns; eauto.
        - apply accounted_init. }
    intros st [Hpc Hperm]. split; [exact Hpc|].
    apply Permutation_repeat.
    rewrite <- (map_const Selection.zero stocks).
    rewrite Hperm. erewrite map_ext_in; [reflexivity|].
    intros s Hin. destruct (Hfail s Hin) as [e E].
    simpl. eapply sent_failed; eauto.
Qed.

Lemma failed_fetch_sends_zero_selection_witness :
  worker world_down amd64 DDD = Returns Selection.zero
  /\ inevitably world_down amd64 [AAA; DDD]
       (fun st => pc st = Delivering /\
                  selections st = [Selection.zero; Selection.zero])
       (init [AAA; DDD]).
Proof.
  destruct (failed_fetch_sends_zero_selection world_down amd64) as [Hone Hall].
  split.
  - apply (Hone DDD "dial tcp: no such host"). vm_compute. reflexivity.
  - apply (Hall [AAA; DDD]).
    + discriminate.
    + intros s [<-|[<-|[]]]; eexists; vm_compute; reflexivity.
Defined.

(** C2, as stated, fails: the fetch for DDD fails, and what its worker sends
    has neither DDD's ticker nor the position computed from DDD's gap and
    opening price. *)
Lemma failed_fetch_loses_candidate :
  (exists e, FetchNews world_down (Stock.Ticker DDD) = Returns (Err e))
  /\ exists sel,
       worker world_down amd64 DDD = Returns sel /\
       Selection.Ticker sel <> Stock.Ticker DDD /\
       Selection.Position sel
       <> Calculate amd64 (Stock.Gap DDD) (Stock.OpeningPrice DDD).
Proof.
  split.
  - eexists. vm_compute. reflexivity.
  - exists Selection.zero. split; [vm_compute; reflexivity|]. split.
    + discriminate.
    + intros H. apply (f_equal Position.Shares) in H. vm_compute in H. discriminate.
Qed.

(* ===================================================================== *)
(** ** The order of the output                                            *)
(* ===================================================================== *)

Lemma Delivering_selections (w : World) (target : arch) (stocks : list Stock.t) st :
  reachable w target stocks st -> pc st = Delivering ->
  List.length (selections st) = List.length stocks /\
  Permutation (selections st) (map (sent w target) stocks).
Proof.
  intros Hr Hpc. destruct (accounted_reachable _ _ _ _ Hr) as [finished Hacc].
  destruct (accounted_Delivering _ _ _ _ _ Hacc Hpc) as [Hp Hsel].
  assert (H : Permutation (selections st) (map (sent w target) stocks)).
  { rewrite Hsel. apply Permutation_map. symmetry. exact Hp. }
  split; [|exact H].
  apply Permutation_length in H. rewrite length_map in H. exact H.
Qed.

(** C9, as the code has it. Main appends the selections in the order they
    arrive on the channel and hands them to [Deliver] unsorted: two complete
    runs over the same candidates and the same news hold the same selections
    up to order. *)
Theorem deliveries_agree_up_to_order
  (w : World) (target : arch) (stocks : list Stock.t) (st1 st2 : State) :
  reachable w target stocks st1 -> pc st1 = Delivering ->
  reachable w target stocks st2 -> pc st2 = Delivering ->
  Permutation (selections st1) (selections st2).
Proof.
  intros Hr1 Hpc1 Hr2 Hpc2.
  destruct (Delivering_selections _ _ _ _ Hr1 Hpc1) as [_ H1].
  destruct (Delivering_selections _ _ _ _ Hr2 Hpc2) as [_ H2].
  rewrite H1, H2. reflexivity.
Qed.

Lemma deliveries_agree_up_to_order_witness :
  exists st1 st2,
    run world_up amd64 [AAA; DDD] in_order (init [AAA; DDD]) = Some st1 /\
    run world_up amd64 [AAA; DDD] out_of_order (init [AAA; DDD]) = Some st2 /\
    Permutation (selections st1) (selections st2).
Proof.
  destruct (run world_up amd64 [AAA; DDD] in_order (init [AAA; DDD]))
    as [st1|] eqn:E1; [|vm_compute in E1; discriminate].
  destruct (run world_up amd64 [AAA; DDD] out_of_order (init [AAA; DDD]))
    as [st2|] eqn:E2; [|vm_compute in E2; discriminate].
  exists st1, st2. split; [reflexivity|]. split; [reflexivity|].
  apply (deliveries_agree_up_to_order world_up amd64 [AAA; DDD]).
  - eapply run_reachable; [apply reachable_init | exact E1].
  - vm_compute in E1. injection E1 as <-. reflexivity.
  - eapply run_reachable; [apply reachable_init | exact E2].
  - vm_compute in E2. injection E2 as <-. reflexivity.
Defined.

(** C9, as stated, fails: with the same candidates and the same news, the
    run in which DDD's worker sends first delivers the two selections in the
    other order. *)
Lemma arrival_order_decides_output :
  exists st1 st2,
    reachable world_up amd64 [AAA; DDD] st1 /\ pc st1 = Delivering /\
    reachable world_up amd64 [AAA; DDD] st2 /\ pc st2 = Delivering /\
    map Selection.Ticker (selections st1) = ["AAA"; "DDD"] /\
    map Selection.Ticker (selections st2) = ["DDD"; "AAA"] /\
    selections st1 <> selections st2.
Proof.
  destruct (run world_up amd64 [AAA; DDD] in_order (init [AAA; DDD]))
    as [st1|] eqn:E1; [|vm_compute in E1; discriminate].
  destruct (run world_up amd64 [AAA; DDD] out_of_order (init [AAA; DDD]))
    as [st2|] eqn:E2; [|vm_compute in E2; discriminate].
  exists st1, st2.
  split; [eapply run_reachable; [apply reachable_init | exact E1]|].
  split; [vm_compute in E1; injection E1 as <-; reflexivity|].
  split; [eapply run_reachable; [apply reachable_init | exact E2]|].
  split; [vm_compute in E2; injection E2 as <-; reflexivity|].
  vm_compute in E1, E2. injection E1 as <-. injection E2 as <-.
  split; [reflexivity|]. split; [reflexivity|].
  simpl. intros H. discriminate H.
Qed.

(* ===================================================================== *)
(** ** How many workers run at once                                       *)
(* ===================================================================== *)

Lemma goroutines_at_most_candidates (w : World) (target : arch) (stocks : list Stock.t) st :
  reachable w target stocks st ->
  (List.length (goroutines st) <= List.length stocks)%nat.
Proof.
  intros Hr. destruct (accounted_reachable _ _ _ _ Hr) as [finished Hacc].
  destruct (accounted_lengths _ _ _ _ _ Hacc) as [H _]. lia.
Qed.

Lemma all_goroutines_live (w : World) (target : arch) (stocks : list Stock.t) :
  exists st, reachable w target stocks st /\ goroutines st = stocks.
Proof.
  eexists. split.
  - apply (all_started w target stocks stocks []). apply reachable_init.
  - reflexivity.
Qed.

(** C4, as the code has it. Main starts one goroutine per candidate and
    nothing limits how many run at once: the live workers never outnumber
    the candidates, and every one of the [len(stocks)] workers can be live at
    the same time. *)
Theorem one_goroutine_per_candidate
  (w : World) (target : arch) (stocks : list Stock.t) :
  (forall st, reachable w target stocks st ->
              (List.length (goroutines st) <= List.length stocks)%nat)
  /\ (exists st, reachable w target stocks st /\ goroutines st = stocks).
Proof.
  split.
  - intros st. apply goroutines_at_most_candidates.
  - apply all_goroutines_live.
Qed.

Lemma one_goroutine_per_candidate_witness :
  exists st,
    run world_up amd64 [AAA; DDD] [Main; Main] (init [AAA; DDD]) = Some st /\
    goroutines st = [AAA; DDD] /\
    (List.length (goroutines st) <= 2)%nat.
Proof.
  destruct (run world_up amd64 [AAA; DDD] [Main; Main] (init [AAA; DDD]))
    as [st|] eqn:E; [|vm_compute in E; discriminate].
  exists st. split; [reflexivity|]. split.
  - vm_compute in E. injection E as <-. reflexivity.
  - apply (one_goroutine_per_candidate world_up amd64 [AAA; DDD]).
    eapply run_reachable; [apply reachable_init | exact E].
Defined.

Lemma ticker_of_length (n : nat) : String.length (ticker_of n) = n.
Proof. induction n as [|n IH]; simpl; congruence. Qed.

Lemma batch_tickers_distinct (n : nat) : NoDup (map Stock.Ticker (batch n)).
Proof.
  unfold batch. rewrite map_map. simpl.
  generalize 1%nat as a. induction n as [|n IH]; intros a; simpl.
  - constructor.
  - constructor; [|apply IH].
    rewrite in_map_iff. intros (k & Hk & Hin).
    apply (f_equal String.length) in Hk. rewrite !ticker_of_length in Hk.
    apply in_seq in Hin. lia.
Qed.

(** C4, as stated, fails: no pool size [W] bounds the workers that run at
    once over all batches, even over the batches whose tickers are
    distinct. *)
Lemma no_pool_size_bounds_the_workers :
  ~ exists W : nat,
      forall stocks st,
        NoDup (map Stock.Ticker stocks) ->
        reachable world_down amd64 stocks st ->
        (List.length (goroutines st) <= W)%nat.
Proof.
  intros [W H].
  destruct (all_goroutines_live world_down amd64 (batch (S W))) as (st & Hr & Hg).
  specialize (H _ _ (batch_tickers_distinct (S W)) Hr).
  rewrite Hg in H. unfold batch in H. rewrite length_map, length_seq in H. lia.
Qed.

(* ===================================================================== *)
(** ** Time limits                                                        *)
(* ===================================================================== *)

Lemma Forall2_In_l {A B : Type} (R : A -> B -> Prop) (l : list A) (l' : list B) (a : A) :
  Forall2 R l l' -> In a l -> exists b, R a b.
Proof.
  intros H. induction H as [|x y l l' Hxy _ IH]; intros Hin; [destruct Hin|].
  destruct Hin as [<-|Hin]; eauto.
Qed.

Lemma FetchNews_Silent (w : World) (ticker : string) (req : Request) :
  http_NewRequest w http_MethodGet (url ++ ticker) = Val req ->
  roundtrip w (Header_Add req apiKeyHeader apiKey) = Silent ->
  FetchNews w ticker = Blocks.
Proof.
  intros Hreq Hsilent. unfold FetchNews, client_Do.
  rewrite Hreq, Hsilent. reflexivity.
Qed.

Lemma blocked_fetch_blocks_main (w : World) (target : arch) (stocks : list Stock.t) s st :
  In s stocks -> FetchNews w (Stock.Ticker s) = Blocks ->
  reachable w target stocks st -> pc st <> Delivering.
Proof.
  intros Hin Hb Hr Hpc.
  destruct (accounted_reachable _ _ _ _ Hr) as [finished Hacc].
  destruct (accounted_Delivering _ _ _ _ _ Hacc Hpc) as [Hp _].
  assert (Hfin : In s finished) by (eapply Permutation_in; eauto).
  destruct (Forall2_In_l _ _ _ _ (acc_sent _ _ _ _ _ Hacc) Hfin) as [sel E].
  unfold worker in E. rewrite Hb in E. discriminate.
Qed.

(** C5, as the code has it. [FetchNews] uses an [http.Client] without a
    timeout, so it never returns when the service never answers; and main
    has no deadline: it leaves its loop only with all [len(stocks)]
    selections, so one fetch that never returns keeps it in the loop for
    ever and nothing is delivered. *)
Theorem no_timeout_and_no_deadline
  (w : World) (target : arch) (stocks : list Stock.t) :
  (forall ticker req,
      http_NewRequest w http_MethodGet (url ++ ticker) = Val req ->
      roundtrip w (Header_Add req apiKeyHeader apiKey) = Silent ->
      FetchNews w ticker = Blocks)
  /\ (forall s, In s stocks -> FetchNews w (Stock.Ticker s) = Blocks ->
                forall st, reachable w target stocks st -> pc st <> Delivering)
  /\ (forall st, reachable w target stocks st -> pc st = Delivering ->
                 List.length (selections st) = List.length stocks).
Proof.
  split; [|split].
  - intros ticker req. apply FetchNews_Silent.
  - intros s Hin Hb st. eapply blocked_fetch_blocks_main; eauto.
  - intros st Hr Hpc. apply (Delivering_selections _ _ _ _ Hr Hpc).
Qed.

Lemma no_timeout_and_no_deadline_witness :
  FetchNews world_silent "AAA" = Blocks
  /\ (forall st, reachable world_silent amd64 [AAA; DDD] st -> pc st <> Delivering)
  /\ exists st,
       run world_up amd64 [AAA; DDD] in_order (init [AAA; DDD]) = Some st /\
       List.length (selections st) = 2%nat.
Proof.
  destruct (no_timeout_and_no_deadline world_silent amd64 [AAA; DDD])
    as (Hfetch & Hmain & _).
  assert (H : FetchNews world_silent "AAA" = Blocks).
  { apply (Hfetch "AAA" {| Method := "GET"; URL := url ++ "AAA"; Header := [] |});
      vm_compute; reflexivity. }
  split; [exact H|]. split.
  - apply (Hmain AAA); [left; reflexivity | exact H].
  - destruct (no_timeout_and_no_deadline world_up amd64 [AAA; DDD])
      as (_ & _ & Hfull).
    destruct (run world_up amd64 [AAA; DDD] in_order (init [AAA; DDD]))
      as [st|] eqn:E; [|vm_compute in E; discriminate].
    exists st. split; [reflexivity|].
    apply Hfull.
    + eapply run_reachable; [apply reachable_init | exact E].
    + vm_compute in E. injection E as <-. reflexivity.
Defined.

(** C5, as stated, fails: the service never answers for AAA, the fetch for
    AAA never returns, and the run in which DDD's selection has been received
    is stuck for good, with main in its loop, one selection collected and
    nothing delivered. *)
Lemma silent_upstream_stalls_the_batch :
  roundtrip world_silent
    {| Method := "GET"; URL := url ++ "AAA"; Header := [(apiKeyHeader, apiKey)] |}
  = Silent
  /\ FetchNews world_silent "AAA" = Blocks
  /\ (forall st, reachable world_silent amd64 [AAA; DDD] st -> pc st <> Delivering)
  /\ exists st,
       run world_silent amd64 [AAA; DDD] until_stall (init [AAA; DDD]) = Some st /\
       stuck world_silent amd64 [AAA; DDD] st /\
       pc st = Ranging /\
       map Selection.Ticker (selections st) = ["DDD"].
Proof.
  split; [vm_compute; reflexivity|].
  assert (Hb : FetchNews world_silent "AAA" = Blocks) by (vm_compute; reflexivity).
  split; [exact Hb|].
  split.
  { intros st. apply (blocked_fetch_blocks_main _ _ _ AAA); [left; reflexivity|exact Hb]. }
  destruct (run world_silent amd64 [AAA; DDD] until_stall (init [AAA; DDD]))
    as [st|] eqn:E; [|vm_compute in E; discriminate].
  exists st. split; [reflexivity|].
  vm_compute in E. injection E as <-.
  split; [|split; reflexivity].
  split; [|discriminate].
  intros [|[|[|i]]]; vm_compute; reflexivity.
Qed.

(* ===================================================================== *)
(** ** FetchNews                                                          *)
(* ===================================================================== *)

Lemma collect_map (items : list seekingAlphaNews.t) : forall articles,
  collect items articles = articles ++ map article_of items.
Proof.
  induction items as [|item items IH]; intros articles; simpl.
  - rewrite app_nil_r. reflexivity.
  - rewrite IH, <- app_assoc. reflexivity.
Qed.

(** When [FetchNews] returns an error: the request cannot be built, the
    round trip fails, or the status is outside 200..299. *)
Lemma FetchNews_error (w : World) (ticker : string) :
  (exists e, FetchNews w ticker = Returns (Err e)) <->
  (exists e, http_NewRequest w http_MethodGet (url ++ ticker) = Err e)
  \/ (exists req, http_NewRequest w http_MethodGet (url ++ ticker) = Val req /\
        ((exists e, roundtrip w (Header_Add req apiKeyHeader apiKey) = Fails e)
         \/ (exists resp, roundtrip w (Header_Add req apiKeyHeader apiKey) = Responds resp
                          /\ (StatusCode resp < 200 \/ 299 < StatusCode resp)%Z))).
Proof.
  unfold FetchNews, client_Do.
  destruct (http_NewRequest w http_MethodGet (url ++ ticker)) as [req|e0].
  2:{ split; eauto. }
  destruct (roundtrip w (Header_Add req apiKeyHeader apiKey)) as [resp|e0|] eqn:Ert; simpl.
  - destruct (StatusCode resp <? 200)%Z eqn:E1; simpl.
    + apply Z.ltb_lt in E1. split; [intros _|eauto].
      right. exists req. split; [reflexivity|]. right. exists resp. auto.
    + apply Z.ltb_ge in E1. destruct (299 <? StatusCode resp)%Z eqn:E2.
      * apply Z.ltb_lt in E2. split; [intros _|eauto].
        right. exists req. split; [reflexivity|]. right. exists resp. auto.
      * apply Z.ltb_ge in E2. split.
        -- intros [e H]. discriminate.
        -- intros [[e H]|(req' & Hreq & [[e H]|(resp' & H & Hs)])]; try discriminate.
           all: injection Hreq as <-; rewrite Ert in H.
           ++ discriminate.
           ++ injection H as <-. lia.
  - split; [intros _|eauto].
    right. exists req. split; [reflexivity|]. left. eauto.
  - split.
    + intros [e H]. discriminate.
    + intros [[e H]|(req' & Hreq & [[e H]|(resp' & H & Hs)])]; try discriminate.
      all: injection Hreq as <-; rewrite Ert in H; discriminate.
Qed.

(** On a 2xx response [FetchNews] returns, with a nil error, one article per
    item the decoder left in [res.Data], in order, whatever error the
    decoder returned. *)
Lemma FetchNews_articles (w : World) (ticker : string) (req : Request) (resp : Response) :
  http_NewRequest w http_MethodGet (url ++ ticker) = Val req ->
  roundtrip w (Header_Add req apiKeyHeader apiKey) = Responds resp ->
  (200 <= StatusCode resp <= 299)%Z ->
  FetchNews w ticker =
  Returns (Val (map article_of
                  (seekingAlphaResponse.Data
                     (fst (json_Decode w (Body resp) seekingAlphaResponse.zero))))).
Proof.
  intros Hreq Hrt Hs. unfold FetchNews, client_Do. rewrite Hreq, Hrt. simpl.
  replace (StatusCode resp <? 200)%Z with false by (symmetry; apply Z.ltb_ge; lia).
  replace (299 <? StatusCode resp)%Z with false by (symmetry; apply Z.ltb_ge; lia).
  simpl. rewrite collect_map. reflexivity.
Qed.

(** C3. A body that does not decode is not an error for [FetchNews]: the
    service answers 200 with a page that is not JSON, the decoder returns an
    error, and [FetchNews] returns no article and a nil error. *)
Theorem FetchNews_drops_decode_error :
  roundtrip world_garbled
    {| Method := "GET"; URL := url ++ "AAA"; Header := [(apiKeyHeader, apiKey)] |}
  = Responds {| StatusCode := 200; Body := "<html>Bad Gateway</html>" |}
  /\ (exists e, snd (json_Decode world_garbled "<html>Bad Gateway</html>"
                       seekingAlphaResponse.zero) = Some e)
  /\ FetchNews world_garbled "AAA" = Returns (Val []).
Proof.
  split; [vm_compute; reflexivity|].
  split; [eexists; vm_compute; reflexivity|].
  vm_compute. reflexivity.
Qed.

(* ===================================================================== *)
(** ** Calculate                                                          *)
(* ===================================================================== *)

Lemma int_of_float64_is_int (t : arch) (x : float64) :
  is_int (int_of_float64 t x) = true.
Proof.
  unfold int_of_float64.
  destruct (trunc x) as [z|].
  - destruct (is_int z) eqn:E; [exact E|].
    destruct t; [reflexivity|]. destruct (z <? 0)%Z; reflexivity.
  - destruct t; [reflexivity|].
    destruct (Prim2SF x) as [| [|] | |]; reflexivity.
Qed.

(** C6. [Calculate] returns a position for every pair of floats, on either
    port: no operation in it can panic (a float division by zero gives an
    infinity or a NaN, and the conversion to [int] always yields an [int]),
    and the result is a function of the two arguments and of the constants
    [maxLossPerTrade] = 200 and [profitPercent] = 0.8 only. With gap -1 the
    closing price is a division by zero: the prices are infinite, no share
    is bought and the profit is NaN. With gap 0 the share count is a
    division by zero: it is the value the port gives for [int(+Inf)]. *)
Theorem Calculate_total :
  (forall t gapPercent openingPrice,
      exists p,
        Calculate t gapPercent openingPrice = p /\
        is_int (Position.Shares p) = true /\
        Position.EntryPrice p
        = PrimFloat.div (math_Round (PrimFloat.mul openingPrice 100%float)) 100%float)
  /\ maxLossPerTrade = 200%float
  /\ (forall t,
         Calculate t (-1)%float 100%float
         = Position.mk 100%float 0%Z
             PrimFloat.infinity PrimFloat.neg_infinity PrimFloat.nan)
  /\ Calculate amd64 0%float 100%float = Position.mk 100%float min_int 100%float 100%float (-0)%float
  /\ Calculate arm64 0%float 100%float = Position.mk 100%float max_int 100%float 100%float 0%float.
Proof.
  split; [|split; [|split; [|split]]].
  - intros t g o. eexists. split; [reflexivity|]. split.
    + apply int_of_float64_is_int.
    + reflexivity.
  - vm_compute. reflexivity.
  - intros []; vm_compute; reflexivity.
  - vm_compute. reflexivity.
  - vm_compute. reflexivity.
Qed.

(* ===================================================================== *)
(** ** The gap filter                                                     *)
(* ===================================================================== *)


(** C7. A gap that is not a number passes the filter: the file row
    ZZZ,NaN,100 loads (ParseFloat accepts NaN), [math.Abs(NaN) < .1] is
    false, and ZZZ stays among the candidates although its absolute gap is
    not at least 0.1. *)
Theorem NaN_gap_passes_the_filter :
  strconv_ParseFloat world_nan "NaN" = Val PrimFloat.nan
  /\ Load world_nan "./opg.csv" = Returns (Val [ZZZ])
  /\ candidates world_nan = Returns (Val [ZZZ])
  /\ PrimFloat.leb 0.1%float (math_Abs (Stock.Gap ZZZ)) = false.
Proof.
  repeat split; vm_compute; reflexivity.
Qed.

(* ===================================================================== *)
(** ** Load                                                               *)
(* ===================================================================== *)

Lemma parsed_rows_cons (w : World) (row : list string) (rows : list (list string)) :
  parsed_rows w (row :: rows)
  = match parsed_row w row with
    | Some s => [s]
    | None => []
    end ++ parsed_rows w rows.
Proof. reflexivity. Qed.

Lemma Load_rows_parsed (w : World) (rows : list (list string)) : forall stocks,
  Forall (fun row => (3 <= List.length row)%nat) rows ->
  Load_rows w rows stocks = Returns (stocks ++ parsed_rows w rows).
Proof.
  induction rows as [|row rows IH]; intros stocks Hrows.
  - simpl. rewrite app_nil_r. reflexivity.
  - inversion Hrows as [|r rs Hrow Hrest]; subst.
    destruct row as [|ticker [|gap [|openingPrice fields]]]; simpl in Hrow; try lia.
    rewrite parsed_rows_cons. simpl.
    destruct (strconv_ParseFloat w gap) as [g|e].
    + destruct (strconv_ParseFloat w openingPrice) as [o|e].
      * rewrite IH by exact Hrest. rewrite <- app_assoc. reflexivity.
      * apply IH. exact Hrest.
    + apply IH. exact Hrest.
Qed.

(** C8. When the file opens and reads as a header row followed by data rows
    of at least three fields, [Load] returns, with a nil error, exactly the
    stocks of the data rows whose gap and opening price both parse, in file
    order; a row one of whose numeric fields does not parse gives no stock
    and no error. *)
Theorem Load_skips_unparsable_rows
  (w : World) (path : string) (f : File) (header : list string)
  (data : list (list string)) :
  os_Open w path = Val f ->
  ReadAll f = Val (header :: data) ->
  Forall (fun row => (3 <= List.length row)%nat) data ->
  Load w path = Returns (Val (parsed_rows w data))
  /\ (forall ticker gap openingPrice fields,
         (exists e, strconv_ParseFloat w gap = Err e) \/
         (exists e, strconv_ParseFloat w openingPrice = Err e) ->
         parsed_row w (ticker :: gap :: openingPrice :: fields) = None).
Proof.
  intros Hopen Hread Hrows. split.
  - unfold Load. rewrite Hopen, Hread. simpl.
    rewrite Load_rows_parsed by exact Hrows. reflexivity.
  - intros ticker gap openingPrice fields [[e E]|[e E]]; simpl; rewrite E.
    + reflexivity.
    + destruct (strconv_ParseFloat w gap); reflexivity.
Qed.

Lemma Load_skips_unparsable_rows_witness :
  Load world_up "./opg.csv"
  = Returns (Val [ AAA; Stock.mk "BBB" 0.05%float 50%float; DDD ])
  /\ parsed_row world_up ["CCC"; "n/a"; "10"] = None
  /\ parsed_row world_up ["EEE"; "0.5"; ""] = None.
Proof.
  destruct (Load_skips_unparsable_rows world_up "./opg.csv"
              {| ReadAll := Val opg_rows |}
              ["Ticker"; "Gap"; "OpeningPrice"] (tl opg_rows))
    as [Hload Hskip].
  - reflexivity.
  - reflexivity.
  - repeat constructor.
  - split; [|split].
    + rewrite Hload. vm_compute. reflexivity.
    + apply Hskip. left. eexists. vm_compute. reflexivity.
    + apply Hskip. right. eexists. vm_compute. reflexivity.
Defined.

(** C10. A file that opens and holds no record makes [Load] panic: the
    header row is deleted from an empty slice, so [Load] returns neither
    stocks nor an error. *)
Theorem Load_panics_on_empty_file (w : World) (path : string) (f : File) :
  os_Open w path = Val f ->
  ReadAll f = Val [] ->
  Load w path = Panics "slice bounds out of range"
  /\ forall r, Load w path <> Returns r.
Proof.
  intros Hopen Hread. unfold Load. rewrite Hopen, Hread. simpl.
  split; [reflexivity | discriminate].
Qed.

Lemma Load_panics_on_empty_file_witness :
  Load world_empty "./opg.csv" = Panics "slice bounds out of range"
  /\ forall r, Load world_empty "./opg.csv" <> Returns r.
Proof.
  apply (Load_panics_on_empty_file world_empty "./opg.csv" {| ReadAll := Val [] |});
    reflexivity.
Defined.

(* ===================================================================== *)
(** ** Further facts, on the test doubles                                 *)
(* ===================================================================== *)

Lemma FetchNews_articles_witness :
  FetchNews world_up "AAA"
  = Returns (Val [ Article.mk 1700000000%Z "AAA beats estimates";
                   Article.mk 1700000600%Z "AAA raises guidance" ]).
Proof.
  rewrite (FetchNews_articles world_up "AAA"
             {| Method := "GET"; URL := url ++ "AAA"; Header := [] |}
             {| StatusCode := 200; Body := "aaa.json" |}).
  - vm_compute. reflexivity.
  - vm_compute. reflexivity.
  - vm_compute. reflexivity.
  - simpl. lia.
Defined.


(** A data row with a single field makes [Load] panic at [row[1]]. *)
Lemma Load_panics_on_short_row
  (w : World) (path : string) (f : File) (header : list string)
  (ticker : string) (data : list (list string)) :
  os_Open w path = Val f ->
  ReadAll f = Val (header :: [ticker] :: data) ->
  Load w path = Panics "index out of range".
Proof.
  intros Hopen Hread. unfold Load. rewrite Hopen, Hread. reflexivity.
Qed.

Lemma Load_panics_on_short_row_witness :
  Load world_narrow "./opg.csv" = Panics "index out of range".
Proof.
  apply (Load_panics_on_short_row world_narrow "./opg.csv"
           {| ReadAll := Val [ ["Ticker"]; ["AAA"] ] |} ["Ticker"] "AAA" []);
    reflexivity.
Defined.

(* ===================================================================== *)
(** ** The channel is used safely                                         *)
(* ===================================================================== *)

(** No run of the fan-out and fan-in panics: no worker sends on the closed
    channel and main never closes it twice, although it is the receiver
    that closes it. *)
Theorem pipeline_never_panics
  (w : World) (target : arch) (stocks : list Stock.t) (st : State) (msg : string) :
  reachable w target stocks st -> pc st <> Crashed msg.
Proof.
  intros Hr. destruct (accounted_reachable _ _ _ _ Hr) as [finished Hacc].
  apply (acc_alive _ _ _ _ _ Hacc).
Qed.

Lemma pipeline_never_panics_witness :
  exists st,
    run world_down amd64 [AAA; DDD] in_order (init [AAA; DDD]) = Some st /\
    pc st <> Crashed "send on closed channel".
Proof.
  destruct (run world_down amd64 [AAA; DDD] in_order (init [AAA; DDD]))
    as [st|] eqn:E; [|vm_compute in E; discriminate].
  exists st. split; [reflexivity|].
  apply (pipeline_never_panics world_down amd64 [AAA; DDD]).
  eapply run_reachable; [apply reachable_init | exact E].
Defined.

(** When main leaves its loop every worker has finished and the channel is
    closed and empty: no goroutine is left running and no selection is left
    unread. *)
Theorem no_worker_left_behind
  (w : World) (target : arch) (stocks : list Stock.t) (st : State) :
  reachable w target stocks st -> pc st = Delivering ->
  goroutines st = [] /\ buffer st = [] /\ closed st = true.
Proof.
  intros Hr Hpc. destruct (accounted_reachable _ _ _ _ Hr) as [finished Hacc].
  pose proof (accounted_lengths _ _ _ _ _ Hacc) as [Hlen1 Hlen2].
  destruct (acc_left _ _ _ _ _ Hacc Hpc) as [Hcl Hbuf].
  pose proof (acc_closed _ _ _ _ _ Hacc Hcl) as Hn.
  rewrite Hbuf in Hlen2. simpl in Hlen2.
  repeat split; auto.
  destruct (goroutines st); [reflexivity | simpl in Hlen1; lia].
Qed.

Lemma no_worker_left_behind_witness :
  exists st,
    run world_up amd64 [AAA; DDD] out_of_order (init [AAA; DDD]) = Some st /\
    goroutines st = [] /\ buffer st = [] /\ closed st = true.
Proof.
  destruct (run world_up amd64 [AAA; DDD] out_of_order (init [AAA; DDD]))
    as [st|] eqn:E; [|vm_compute in E; discriminate].
  exists st. split; [reflexivity|].
  apply (no_worker_left_behind world_up amd64 [AAA; DDD]).
  - eapply run_reachable; [apply reachable_init | exact E].
  - vm_compute in E. injection E as <-. reflexivity.
Defined.

(** A worker whose fetch has returned can always send at once: the channel
    is open and has room, whatever the other workers and main have done. *)
Theorem send_never_blocks
  (w : World) (target : arch) (stocks : list Stock.t) (st : State)
  (i : nat) (s : Stock.t) (sel : Selection.t) :
  reachable w target stocks st ->
  nth_error (goroutines st) i = Some s ->
  worker w target s = Returns sel ->
  worker_step w target stocks i st
  = Some {| pc := pc st; goroutines := remove_nth i (goroutines st);
            buffer := buffer st ++ [sel]; closed := false;
            selections := selections st |}.
Proof.
  intros Hr Hnth Hw.
  destruct (accounted_reachable _ _ _ _ Hr) as [finished Hacc].
  pose proof (accounted_lengths _ _ _ _ _ Hacc) as [Hlen1 Hlen2].
  pose proof (remove_nth_length _ _ _ Hnth) as Hg.
  assert (Hcl : closed st = false).
  { destruct (closed st) eqn:E; [|reflexivity].
    pose proof (acc_closed _ _ _ _ _ Hacc E). lia. }
  assert (Hroom : (List.length (buffer st) <? List.length stocks)%nat = true).
  { apply Nat.ltb_lt. lia. }
  unfold worker_step. rewrite Hnth, Hw, Hcl, Hroom.
  destruct (pc st) as [rest| | |msg] eqn:Epc; try reflexivity.
  - destruct (acc_left _ _ _ _ _ Hacc Epc) as [E _]. congruence.
  - exfalso. exact (acc_alive _ _ _ _ _ Hacc msg Epc).
Qed.

Lemma send_never_blocks_witness :
  exists st st',
    run world_up amd64 [AAA; DDD] [Main; Main; Worker 0] (init [AAA; DDD]) = Some st /\
    worker_step world_up amd64 [AAA; DDD] 0 st = Some st' /\
    map Selection.Ticker (buffer st') = ["AAA"; "DDD"].
Proof.
  destruct (run world_up amd64 [AAA; DDD] [Main; Main; Worker 0] (init [AAA; DDD]))
    as [st|] eqn:E; [|vm_compute in E; discriminate].
  exists st. eexists. split; [reflexivity|]. split.
  - apply (send_never_blocks world_up amd64 [AAA; DDD] st 0 DDD
             (sent world_up amd64 DDD)).
    + eapply run_reachable; [apply reachable_init | exact E].
    + vm_compute in E. injection E as <-. reflexivity.
    + vm_compute. reflexivity.
  - vm_compute in E. injection E as <-. vm_compute. reflexivity.
Defined.

(* ===================================================================== *)
(** ** When every fetch succeeds                                          *)
(* ===================================================================== *)

(** When the fetch succeeds for every candidate, what main delivers names
    the candidates exactly: the tickers delivered are a permutation of the
    candidates' tickers (distinct when theirs are), and every selection
    carries the position computed from its own candidate's gap and opening
    price. *)
Theorem fetched_batch_keeps_identifiers
  (w : World) (target : arch) (stocks : list Stock.t) (st : State) :
  (forall s, In s stocks ->
             exists articles, FetchNews w (Stock.Ticker s) = Returns (Val articles)) ->
  reachable w target stocks st -> pc st = Delivering ->
  Permutation (map Selection.Ticker (selections st)) (map Stock.Ticker stocks)
  /\ (NoDup (map Stock.Ticker stocks) ->
      NoDup (map Selection.Ticker (selections st)))
  /\ Forall (fun sel =>
               exists s, In s stocks /\
                         Selection.Ticker sel = Stock.Ticker s /\
                         Selection.Position sel
                         = Calculate target (Stock.Gap s) (Stock.OpeningPrice s))
       (selections st).
Proof.
  intros Hok Hr Hpc.
  destruct (Delivering_selections _ _ _ _ Hr Hpc) as [_ Hperm].
  assert (Hsent : forall s, In s stocks ->
            Selection.Ticker (sent w target s) = Stock.Ticker s /\
            Selection.Position (sent w target s)
            = Calculate target (Stock.Gap s) (Stock.OpeningPrice s)).
  { intros s Hin. destruct (Hok s Hin) as [articles E].
    rewrite (sent_fetched _ _ _ _ E). split; reflexivity. }
  assert (Ht : Permutation (map Selection.Ticker (selections st))
                 (map Stock.Ticker stocks)).
  { rewrite Hperm, map_map. erewrite map_ext_in; [reflexivity|].
    intros s Hin. apply (Hsent s Hin). }
  split; [exact Ht|]. split.
  - intros Hnd. eapply Permutation_NoDup; [symmetry; exact Ht | exact Hnd].
  - apply Forall_forall. intros sel Hin.
    apply (Permutation_in _ Hperm) in Hin. apply in_map_iff in Hin.
    destruct Hin as (s & <- & Hs). exists s. split; [exact Hs|]. apply (Hsent s Hs).
Qed.

Lemma fetched_batch_keeps_identifiers_witness :
  exists st,
    run world_up amd64 [AAA; DDD] out_of_order (init [AAA; DDD]) = Some st /\
    Permutation (map Selection.Ticker (selections st)) ["AAA"; "DDD"] /\
    NoDup (map Selection.Ticker (selections st)).
Proof.
  destruct (run world_up amd64 [AAA; DDD] out_of_order (init [AAA; DDD]))
    as [st|] eqn:E; [|vm_compute in E; discriminate].
  exists st. split; [reflexivity|].
  destruct (fetched_batch_keeps_identifiers world_up amd64 [AAA; DDD] st)
    as (Hperm & Hnd & _).
  - intros s [<-|[<-|[]]]; eexists; vm_compute; reflexivity.
  - eapply run_reachable; [apply reachable_init | exact E].
  - vm_compute in E. injection E as <-. reflexivity.
  - split; [exact Hperm|]. apply Hnd.
    repeat constructor; simpl; intuition discriminate.
Defined.

(* ===================================================================== *)
(** ** How every run ends                                                 *)
(* ===================================================================== *)

Lemma worker_step_out_of_range (w : World) (target : arch) (stocks : list Stock.t)
  (i : nat) (st : State) :
  (List.length (goroutines st) <= i)%nat -> worker_step w target stocks i st = None.
Proof.
  intros H. apply nth_error_None in H. unfold worker_step. rewrite H.
  destruct (pc st); reflexivity.
Qed.

Lemma idle_true (w : World) (target : arch) (stocks : list Stock.t) (st : State) :
  idle w target stocks st = true <-> forall a, perform w target stocks a st = None.
Proof.
  unfold idle. rewrite andb_true_iff, forallb_forall. split.
  - intros [Hm Hw] [|i]; simpl.
    + destruct (main_step stocks st); [discriminate | reflexivity].
    + destruct (Nat.lt_ge_cases i (List.length (goroutines st))) as [Hi|Hi].
      * specialize (Hw i). rewrite in_seq in Hw.
        destruct (worker_step w target stocks i st); [|reflexivity].
        discriminate Hw. lia.
      * apply worker_step_out_of_range. exact Hi.
  - intros H. split.
    + pose proof (H Main) as E. simpl in E. rewrite E. reflexivity.
    + intros i _. pose proof (H (Worker i)) as E. simpl in E. rewrite E. reflexivity.
Qed.

Lemma idle_false (w : World) (target : arch) (stocks : list Stock.t) (st : State) :
  idle w target stocks st = false -> exists a st', perform w target stocks a st = Some st'.
Proof.
  unfold idle. intros H. apply andb_false_iff in H. destruct H as [H|H].
  - exists Main. simpl. destruct (main_step stocks st); [eauto | discriminate].
  - assert (Hex : existsb (fun i => negb (is_none (worker_step w target stocks i st)))
                    (seq 0 (List.length (goroutines st))) = true).
    { induction (seq 0 (List.length (goroutines st))) as [|i l IH]; simpl in *.
      - discriminate.
      - apply andb_false_iff in H. destruct H as [H|H].
        + rewrite H. reflexivity.
        + rewrite (IH H). apply orb_true_r. }
    apply existsb_exists in Hex. destruct Hex as (i & _ & Hi).
    exists (Worker i). simpl.
    destruct (worker_step w target stocks i st); [eauto | discriminate].
Qed.

Lemma Permutation_filter {A : Type} (f : A -> bool) (l l' : list A) :
  Permutation l l' -> Permutation (filter f l) (filter f l').
Proof.
  induction 1 as [|x l l' _ IH|x y l|l l' l'' _ IH1 _ IH2]; simpl.
  - constructor.
  - destruct (f x); [constructor|]; exact IH.
  - destruct (f x), (f y); try reflexivity. constructor.
  - etransitivity; eauto.
Qed.

Lemma filter_all {A : Type} (f : A -> bool) (l : list A) :
  Forall (fun a => f a = true) l -> filter f l = l.
Proof.
  induction 1 as [|a l Ha _ IH]; simpl; [reflexivity|].
  rewrite Ha, IH. reflexivity.
Qed.

Lemma filter_none {A : Type} (f : A -> bool) (l : list A) :
  Forall (fun a => f a = false) l -> filter f l = [].
Proof.
  induction 1 as [|a l Ha _ IH]; simpl; [reflexivity|].
  rewrite Ha. exact IH.
Qed.

Lemma finished_returns (w : World) (target : arch) (finished : list Stock.t)
  (sels : list Selection.t) :
  Forall2 (fun s sel => worker w target s = Returns sel) finished sels ->
  Forall (fun s => returns w target s = true) finished.
Proof.
  induction 1 as [|s sel l l' E _ IH]; constructor; [|exact IH].
  unfold returns. rewrite E. reflexivity.
Qed.

Section Endings.

Variable w : World.
Variable target : arch.
Variable stocks : list Stock.t.

Lemma idle_ended finished st :
  stocks <> [] ->
  accounted w target stocks finished st ->
  (forall a, perform w target stocks a st = None) ->
  ended w target stocks st.
Proof.
  intros Hne Hacc Hidle.
  pose proof (accounted_lengths _ _ _ _ _ Hacc) as [Hlen1 Hlen2].
  pose proof (finished_returns _ _ _ _ (acc_sent _ _ _ _ _ Hacc)) as Hfin.
  destruct (pc st) as [rest| | |msg] eqn:Epc.
  - specialize (Hidle Main). simpl in Hidle. unfold main_step in Hidle.
    rewrite Epc in Hidle. destruct rest; discriminate.
  - (* blocked in the range loop *)
    pose proof (Hidle Main) as Hmain. simpl in Hmain. unfold main_step in Hmain.
    rewrite Epc in Hmain.
    destruct (buffer st) as [|sel buf] eqn:Ebuf.
    2:{ destruct (_ =? _)%nat; [destruct (closed st)|]; discriminate. }
    destruct (closed st) eqn:Ecl; [discriminate|].
    assert (Hblocked : Forall (fun s => returns w target s = false) (goroutines st)).
    { apply Forall_forall. intros s Hin.
      apply In_nth_error in Hin. destruct Hin as [i Hi].
      specialize (Hidle (Worker i)). simpl in Hidle. unfold worker_step in Hidle.
      rewrite Epc, Hi, Ecl, Ebuf in Hidle. unfold returns.
      destruct (worker w target s); try reflexivity; try discriminate.
      simpl in Hidle. destruct stocks; [congruence | discriminate]. }
    pose proof (acc_places _ _ _ _ _ Hacc) as Hp.
    unfold unstarted in Hp. rewrite Epc, app_nil_r in Hp.
    pose proof (acc_sent _ _ _ _ _ Hacc) as Hs. rewrite Ebuf, app_nil_r in Hs.
    pose proof (acc_open _ _ _ _ _ Hacc Ecl Hne) as Hopen.
    try rewrite Ebuf in Hlen2. simpl in Hlen2.
    unfold unstarted in Hlen1. try rewrite Epc in Hlen1. simpl in Hlen1.
    unfold ended. rewrite Epc. split; [|split].
    + rewrite (Permutation_filter (returns w target) _ _ Hp), filter_app.
      rewrite (filter_all _ _ Hfin), (filter_none _ _ Hblocked), app_nil_r.
      erewrite (Forall2_map_eq _ (sent w target) _ _ _ Hs). reflexivity.
    + right. reflexivity.
    + split; [discriminate|]. intros Hall. exfalso.
      destruct (goroutines st) as [|s g] eqn:Eg; [simpl in Hlen1; lia|].
      rewrite forallb_forall in Hall.
      assert (Hin : In s stocks).
      { eapply Permutation_in; [symmetry; exact Hp|].
        apply in_or_app. right. left. reflexivity. }
      specialize (Hall s Hin). inversion Hblocked; subst. congruence.
  - (* out of the loop *)
    destruct (accounted_Delivering _ _ _ _ _ Hacc Epc) as [Hp Hsel].
    assert (Hall : Forall (fun s => returns w target s = true) stocks).
    { rewrite Forall_forall in *. intros s Hin. apply Hfin.
      eapply Permutation_in; eauto. }
    unfold ended. rewrite Epc. split; [|split].
    + rewrite (filter_all _ _ Hall), Hsel. apply Permutation_map. symmetry. exact Hp.
    + left. reflexivity.
    + split; [intros _|reflexivity]. apply forallb_forall.
      rewrite Forall_forall in Hall. exact Hall.
  - exfalso. exact (acc_alive _ _ _ _ _ Hacc msg Epc).
  Unshelve. intros s sel E. unfold sent. rewrite E. reflexivity.
Qed.

Lemma inevitably_ended n : forall finished st,
  stocks <> [] ->
  (fuel st <= n)%nat ->
  accounted w target stocks finished st ->
  inevitably w target stocks (ended w target stocks) st.
Proof.
  induction n as [|n IH]; intros finished st Hne Hfuel Hacc;
    destruct (idle w target stocks st) eqn:Eidle.
  - pose proof (proj1 (idle_true _ _ _ _) Eidle) as Hidle.
    apply inevitably_now; [exact Hidle|].
    eapply idle_ended; eauto.
  - apply idle_false in Eidle. destruct Eidle as (a & st' & Hstep).
    apply fuel_decreases in Hstep. lia.
  - pose proof (proj1 (idle_true _ _ _ _) Eidle) as Hidle.
    apply inevitably_now; [exact Hidle|].
    eapply idle_ended; eauto.
  - apply inevitably_later; [apply idle_false; exact Eidle|].
    intros a st' Hstep.
    destruct (accounted_step _ _ _ _ _ _ Hacc (ex_intro _ a Hstep)) as [finished' Hacc'].
    apply (IH finished'); auto.
    apply fuel_decreases in Hstep. lia.
Qed.

End Endings.

(** Every run of the fan-out and fan-in over at least one candidate is
    finite, whatever the fetches do. When nothing can move any more, main
    holds, in arrival order, exactly the selections of the candidates whose
    fetch returned; it is out of its loop if every fetch returned, and
    blocked in the loop, with those selections undelivered, otherwise. *)
Theorem every_run_ends (w : World) (target : arch) (stocks : list Stock.t) :
  stocks <> [] ->
  inevitably w target stocks
    (fun st =>
       Permutation (selections st)
         (map (sent w target) (filter (returns w target) stocks))
       /\ (pc st = Delivering \/ pc st = Ranging)
       /\ (pc st = Delivering <-> forallb (returns w target) stocks = true))
    (init stocks).
Proof.
  intros Hne.
  apply (inevitably_ended w target stocks (fuel (init stocks)) []); auto.
  apply accounted_init.
Qed.

Lemma every_run_ends_witness :
  inevitably world_silent amd64 [AAA; DDD]
    (fun st =>
       Permutation (selections st) [sent world_silent amd64 DDD]
       /\ (pc st = Delivering \/ pc st = Ranging)
       /\ (pc st = Delivering <-> false = true))
    (init [AAA; DDD]).
Proof.
  apply (every_run_ends world_silent amd64 [AAA; DDD]). discriminate.
Defined.

(* ===================================================================== *)
(** ** Load: errors and panics                                            *)
(* ===================================================================== *)



Lemma Load_rows_short (w : World) (rows : list (list string)) : forall stocks,
  (existsb (short_row w) rows = false ->
   Load_rows w rows stocks = Returns (stocks ++ parsed_rows w rows))
  /\ (existsb (short_row w) rows = true ->
      Load_rows w rows stocks = Panics "index out of range").
Proof.
  induction rows as [|row rows IH]; intros stocks; simpl existsb.
  - split; [intros _|discriminate]. simpl. rewrite app_nil_r. reflexivity.
  - rewrite parsed_rows_cons.
    destruct row as [|ticker [|gap [|openingPrice fields]]]; simpl.
    + split; [discriminate | reflexivity].
    + split; [discriminate | reflexivity].
    + destruct (strconv_ParseFloat w gap) as [g|e]; simpl.
      * split; [discriminate | reflexivity].
      * apply IH.
    + destruct (strconv_ParseFloat w gap) as [g|e].
      * destruct (strconv_ParseFloat w openingPrice) as [o|e].
        -- destruct (IH (stocks ++ [Stock.mk ticker g o])) as [IH1 IH2].
           split; intros H; [rewrite (IH1 H), <- app_assoc; reflexivity | exact (IH2 H)].
        -- apply IH.
      * apply IH.
Qed.

(** When the file reads as a first record followed by data rows, [Load]
    panics exactly when some data row is too short for the fields the loop
    reads (no field, one field, or two fields with a gap that parses), and
    with an index out of range; otherwise it returns the stocks of the rows
    that parse. A row of two fields whose gap does not parse is skipped. *)
Theorem Load_returns_or_panics
  (w : World) (path : string) (f : File) (first : list string)
  (data : list (list string)) :
  os_Open w path = Val f ->
  ReadAll f = Val (first :: data) ->
  (existsb (short_row w) data = false ->
   Load w path = Returns (Val (parsed_rows w data)))
  /\ (existsb (short_row w) data = true ->
      Load w path = Panics "index out of range").
Proof.
  intros Hopen Hread. unfold Load. rewrite Hopen, Hread. simpl.
  destruct (Load_rows_short w data []) as [H1 H2].
  split; intros H; [rewrite (H1 H) | rewrite (H2 H)]; reflexivity.
Qed.

Lemma Load_returns_or_panics_witness :
  Load world_two_columns "./opg.csv" = Returns (Val [])
  /\ Load world_narrow "./opg.csv" = Panics "index out of range".
Proof.
  split.
  - apply (Load_returns_or_panics world_two_columns "./opg.csv"
             {| ReadAll := Val [ ["Ticker"; "Gap"]; ["AAA"; "n/a"]; ["BBB"; "-"] ] |}
             ["Ticker"; "Gap"] [ ["AAA"; "n/a"]; ["BBB"; "-"] ]);
      reflexivity.
  - apply (Load_returns_or_panics world_narrow "./opg.csv"
             {| ReadAll := Val [ ["Ticker"]; ["AAA"] ] |} ["Ticker"] [ ["AAA"] ]);
      reflexivity.
Defined.

(* ===================================================================== *)
(** ** Deliver                                                            *)
(* ===================================================================== *)

Lemma write_file_other (d : Disk) (path content p : string) :
  p <> path -> write_file d path content p = d p.
Proof.
  intros H. unfold write_file. apply String.eqb_neq in H. rewrite H. reflexivity.
Qed.

Lemma write_file_same (d : Disk) (path content : string) :
  write_file d path content path = Some content.
Proof.
  unfold write_file. rewrite String.eqb_refl. reflexivity.
Qed.

(** What [Deliver] does to the disk. It touches no file but [filePath]. It
    returns nil exactly when the file is created, the selections are encoded
    and the text is written, and then the file holds the JSON text followed
    by a newline. When the file cannot be created the disk is as before. Once
    the file is created, a failure leaves in it what reached it, and not
    what it held before: nothing after an encoding error. *)
Theorem Deliver_effect
  (k : Sink) (filePath : string) (selections : list Selection.t) (d : Disk) :
  let err := fst (Deliver k filePath selections d) in
  let d' := snd (Deliver k filePath selections d) in
  (forall p, p <> filePath -> d' p = d p)
  /\ (err = None <->
      os_Create k filePath = None /\
      exists text, Encode k selections = Val text /\ snd (file_Write k text) = None)
  /\ (err = None ->
      exists body, json_Marshal k selections = Val body /\
                   d' filePath = Some (body ++ newline)%string)
  /\ (forall e, os_Create k filePath = Some e -> d' = d)
  /\ (forall e, os_Create k filePath = None -> Encode k selections = Err e ->
                err = Some ("error encoding selections: " ++ e)%string /\
                d' filePath = Some "")
  /\ (forall text e, os_Create k filePath = None ->
                     Encode k selections = Val text ->
                     snd (file_Write k text) = Some e ->
                     d' filePath = Some (fst (file_Write k text))).
Proof.
  unfold Deliver.
  destruct (os_Create k filePath) as [e0|] eqn:Ecreate; simpl.
  { split; [reflexivity|].
    split; [split; [discriminate | intros [H _]; discriminate]|].
    split; [discriminate|].
    split; [reflexivity|].
    split; [intros e H; discriminate | intros text e H; discriminate]. }
  destruct (Encode k selections) as [text|e0] eqn:Eenc; simpl.
  2:{ split; [intros p Hp; apply write_file_other; exact Hp|].
      split; [split; [discriminate | intros (_ & text & H & _); discriminate]|].
      split; [discriminate|].
      split; [intros e H; discriminate|].
      split; [|intros text e _ H; discriminate].
      intros e _ [= <-]. split; [reflexivity | apply write_file_same]. }
  destruct (file_Write k text) as [written [e0|]] eqn:Ewrite; simpl.
  - split; [intros p Hp; rewrite !write_file_other by exact Hp; reflexivity|].
    split.
    { split; [discriminate|].
      intros (_ & text' & [= <-] & H'). rewrite Ewrite in H'. discriminate. }
    split; [discriminate|].
    split; [intros e H; discriminate|].
    split; [intros e _ H; discriminate|].
    intros text' e _ [= <-] _. rewrite Ewrite. simpl. apply write_file_same.
  - split; [intros p Hp; rewrite !write_file_other by exact Hp; reflexivity|].
    split.
    { split; [|reflexivity]. intros _. split; [reflexivity|].
      exists text. rewrite Ewrite. auto. }
    split.
    { intros _. unfold Encode in Eenc.
      destruct (forallb encodable selections); [|discriminate].
      destruct (json_Marshal k selections) as [body|e0]; [|discriminate].
      injection Eenc as <-. exists body. split; [reflexivity|]. apply write_file_same. }
    split; [intros e H; discriminate|].
    split; [intros e _ H; discriminate|].
    intros text' e _ [= <-] H'. rewrite Ewrite in H'. discriminate.
Qed.

Lemma Deliver_effect_witness :
  fst (Deliver sink_ok "./opg.json" [Selection.zero] disk_old) = None
  /\ snd (Deliver sink_readonly "./opg.json" [Selection.zero] disk_old) = disk_old
  /\ snd (Deliver sink_full "./opg.json" [Selection.zero] disk_old) "./opg.json"
     = Some "".
Proof.
  destruct (Deliver_effect sink_ok "./opg.json" [Selection.zero] disk_old)
    as (_ & Hok & _).
  destruct (Deliver_effect sink_readonly "./opg.json" [Selection.zero] disk_old)
    as (_ & _ & _ & Hro & _).
  destruct (Deliver_effect sink_full "./opg.json" [Selection.zero] disk_old)
    as (_ & _ & _ & _ & _ & Hfull).
  split; [|split].
  - apply Hok. split; [reflexivity|].
    eexists. split; vm_compute; reflexivity.
  - apply (Hro "open ./opg.json: permission denied"). reflexivity.
  - apply (Hfull (render [Selection.zero] ++ newline)%string
             "write ./opg.json: no space left on device"); vm_compute; reflexivity.
Defined.

(* ===================================================================== *)
(** ** Calculate: infinities, NaN and the sign of the share count         *)
(* ===================================================================== *)











Lemma div_abs_sign (c y : float64) (m : positive) (e : Z) :
  Prim2SF c = S754_finite false m e ->
  match Prim2SF (PrimFloat.div c (math_Abs y)) with
  | S754_finite true _ _ => False
  | S754_infinity true => False
  | _ => True
  end.
Proof.
  intros Hc. unfold math_Abs. rewrite FloatAxioms.div_spec, FloatAxioms.abs_spec, Hc.
  unfold SF64div, SFdiv, SFabs.
  destruct (Prim2SF y) as [sy|sy| |sy my ey]; try exact I.
  destruct (SFdiv_core_binary prec emax (Zpos m) e (Zpos my) ey) as [[mz ez] lz].
  unfold binary_round_aux.
  destruct (shr_fexp prec emax mz ez lz) as [mrs' e'].
  destruct (shr_fexp prec emax _ e' loc_Exact) as [mrs'' e''].
  destruct (shr_m mrs''); try exact I.
  destruct (e'' <=? emax - prec)%Z; exact I.
Qed.

(** The share count is never a negative count. On arm64 it lies between 0
    and the largest [int]; on amd64 it does too, or it is the smallest
    [int], the value the port gives when the quotient is NaN, infinite or
    too large. *)
Theorem Shares_sign (gapPercent openingPrice : float64) :
  (0 <= Position.Shares (Calculate arm64 gapPercent openingPrice) <= max_int)%Z
  /\ ((0 <= Position.Shares (Calculate amd64 gapPercent openingPrice) <= max_int)%Z
      \/ Position.Shares (Calculate amd64 gapPercent openingPrice) = min_int).
Proof.
  assert (Hc : Prim2SF maxLossPerTrade = S754_finite false 7036874417766400 (-45))
    by (vm_compute; reflexivity).
  unfold Calculate. cbn [Position.Shares].
  set (y := PrimFloat.sub _ openingPrice).
  pose proof (div_abs_sign maxLossPerTrade y _ _ Hc) as Hs.
  set (q := PrimFloat.div maxLossPerTrade (math_Abs y)) in *.
  unfold int_of_float64, trunc.
  destruct (Prim2SF q) as [s|s| |s mq eq]; simpl.
  - split; [|left]; unfold max_int; lia.
  - destruct s; [contradiction|]. split; [|right; reflexivity].
    unfold max_int. lia.
  - split; [|right; reflexivity]. unfold max_int. lia.
  - destruct s; [contradiction|].
    assert (Hz : (0 <= Z.shiftl (Zpos mq) eq)%Z) by (apply Z.shiftl_nonneg; lia).
    destruct (is_int (Z.shiftl (Zpos mq) eq)) eqn:Ei.
    + unfold is_int in Ei. apply andb_true_iff in Ei. destruct Ei as [_ Ei].
      apply Z.leb_le in Ei. split; [|left]; lia.
    + split; [|right; reflexivity].
      destruct (Z.shiftl (Zpos mq) eq <? 0)%Z eqn:En.
      * apply Z.ltb_lt in En. lia.
      * unfold max_int. lia.
Qed.

(* ===================================================================== *)
(** ** One degenerate candidate and the whole output                      *)
(* ===================================================================== *)




(* ===================================================================== *)
(** ** main, from the file to the file                                    *)
(* ===================================================================== *)

Lemma inevitably_run (w : World) (target : arch) (stocks : list Stock.t)
  (P : State -> Prop) (st : State) :
  inevitably w target stocks P st ->
  exists schedule st',
    run w target stocks schedule st = Some st' /\ P st' /\
    forall a, perform w target stocks a st' = None.
Proof.
  induction 1 as [st Hno HP | st (a & st1 & Hstep) _ IH].
  - exists [], st. simpl. auto.
  - destruct (IH a st1 Hstep) as (schedule & st' & Hrun & HP & Hno).
    exists (a :: schedule), st'. simpl. rewrite Hstep. auto.
Qed.

(** When at least one stock passes the filter and every fetch returns, every
    complete run of [main] ends in one call of [Deliver], on a list that
    holds one selection per candidate (a permutation of what the workers
    send), and such a run exists: main neither hangs nor panics, and whether
    the output is written is [Deliver]'s affair alone. *)
Theorem main_delivers_every_candidate
  (w : World) (k : Sink) (target : arch) (stocks : list Stock.t) (d : Disk) :
  candidates w = Returns (Val stocks) ->
  stocks <> [] ->
  (forall s, In s stocks -> exists r, FetchNews w (Stock.Ticker s) = Returns r) ->
  (exists schedule e d', main w k target schedule d = Some (e, d'))
  /\ forall schedule e d',
       main w k target schedule d = Some (e, d') ->
       exists delivered,
         Permutation delivered (map (sent w target) stocks) /\
         e = Finished delivered (fst (Deliver k "./opg.json" delivered d)) /\
         d' = snd (Deliver k "./opg.json" delivered d).
Proof.
  intros Hc Hne Hret.
  assert (Hw : forall s, In s stocks -> exists sel, worker w target s = Returns sel).
  { intros s Hin. destruct (Hret s Hin) as [r E]. eapply worker_fetch_returns; eauto. }
  split.
  - pose proof (inevitably_Delivering w target stocks (fuel (init stocks)) []
                  (init stocks) Hne Hw (le_n _) (accounted_init w target stocks)) as Hinev.
    apply inevitably_run in Hinev.
    destruct Hinev as (schedule & st & Hrun & [Hpc _] & _).
    exists schedule. unfold main. rewrite Hc, Hrun, Hpc.
    destruct (Deliver k "./opg.json" (selections st) d) as [err d']. eauto.
  - intros schedule e d' Hmain. unfold main in Hmain. rewrite Hc in Hmain.
    destruct (run w target stocks schedule (init stocks)) as [st|] eqn:Hrun;
      [|discriminate].
    assert (Hr : reachable w target stocks st).
    { eapply run_reachable; [apply reachable_init | exact Hrun]. }
    destruct (accounted_reachable _ _ _ _ Hr) as [finished Hacc].
    assert (Hidle : pc st <> Delivering -> idle w target stocks st = false).
    { intros Hpc. destruct (idle w target stocks st) eqn:Ei; [|reflexivity].
      pose proof (proj1 (idle_true _ _ _ _) Ei) as Hno.
      destruct (progress w target stocks finished st Hne Hw Hacc Hpc) as (a & st' & Hs).
      rewrite Hno in Hs. discriminate. }
    destruct (pc st) as [rest| | |msg] eqn:Epc.
    + rewrite Hidle in Hmain by discriminate. discriminate.
    + rewrite Hidle in Hmain by discriminate. discriminate.
    + destruct (Delivering_selections _ _ _ _ Hr Epc) as [_ Hperm].
      exists (selections st). split; [exact Hperm|].
      destruct (Deliver k "./opg.json" (selections st) d) as [err d''].
      injection Hmain as <- <-. split; reflexivity.
    + exfalso. exact (acc_alive _ _ _ _ _ Hacc msg Epc).
Qed.

Lemma main_delivers_every_candidate_witness :
  exists schedule e d',
    main world_up sink_ok amd64 schedule disk_old = Some (e, d').
Proof.
  apply (main_delivers_every_candidate world_up sink_ok amd64 [AAA; DDD] disk_old).
  - vm_compute. reflexivity.
  - discriminate.
  - intros s [<-|[<-|[]]]; eexists; vm_compute; reflexivity.
Defined.

(** When no loaded stock passes the filter (a file with only its first
    record included), [main] never calls [Deliver]: once it is in the range
    loop nothing can move, and every complete run ends with main blocked and
    the disk as it was. *)
Theorem main_without_candidates_hangs
  (w : World) (k : Sink) (target : arch) (loaded : list Stock.t) (d : Disk) :
  Load w "./opg.csv" = Returns (Val loaded) ->
  forallb small_gap loaded = true ->
  main w k target [Main] d = Some (Hung [], d)
  /\ forall schedule e d',
       main w k target schedule d = Some (e, d') -> e = Hung [] /\ d' = d.
Proof.
  intros Hload Hsmall.
  assert (Hc : candidates w = Returns (Val [])).
  { unfold candidates. rewrite Hload. simpl. f_equal. f_equal.
    unfold slices_DeleteFunc. apply filter_none.
    rewrite forallb_forall in Hsmall. apply Forall_forall.
    intros s Hin. rewrite (Hsmall s Hin). reflexivity. }
  split.
  - unfold main. rewrite Hc. reflexivity.
  - intros schedule e d' Hmain. unfold main in Hmain. rewrite Hc in Hmain.
    destruct schedule as [|[|i] [|a schedule]]; simpl in Hmain.
    + discriminate.
    + injection Hmain as <- <-. auto.
    + destruct a as [|[|j]]; discriminate.
    + destruct i; discriminate.
    + destruct i; discriminate.
Qed.

Lemma main_without_candidates_hangs_witness :
  main world_small sink_ok amd64 [Main] disk_old = Some (Hung [], disk_old).
Proof.
  apply (main_without_candidates_hangs world_small sink_ok amd64
           [Stock.mk "BBB" 0.05%float 50%float] disk_old);
    vm_compute; reflexivity.
Defined.

(** When the input cannot be opened or read, or [Load] panics, [main] ends
    before it starts any worker, whatever the schedule, and the output file
    is neither created nor emptied. *)
Theorem main_stops_before_the_fanout
  (w : World) (k : Sink) (target : arch) (schedule : list action) (d : Disk) :
  (forall e, Load w "./opg.csv" = Returns (Err e) ->
             main w k target schedule d = Some (LoadFailed e, d))
  /\ (forall msg, Load w "./opg.csv" = Panics msg ->
                  main w k target schedule d = Some (Panicked msg, d)).
Proof.
  split; intros x H; unfold main, candidates; rewrite H; reflexivity.
Qed.

Lemma main_stops_before_the_fanout_witness :
  main world_missing sink_ok amd64 in_order disk_old
  = Some (LoadFailed "open ./opg.csv: no such file or directory", disk_old)
  /\ main world_empty sink_ok amd64 in_order disk_old
     = Some (Panicked "slice bounds out of range", disk_old).
Proof.
  split.
  - apply (main_stops_before_the_fanout world_missing sink_ok amd64 in_order disk_old).
    reflexivity.
  - apply (main_stops_before_the_fanout world_empty sink_ok amd64 in_order disk_old).
    reflexivity.
Defined.

(* ===================================================================== *)
(** ** FetchNews and the filter, once more                                *)
(* ===================================================================== *)



Lemma Abs_opp (x : float64) : math_Abs (PrimFloat.opp x) = math_Abs x.
Proof.
  apply Prim2SF_inj. unfold math_Abs.
  rewrite !FloatAxioms.abs_spec, FloatAxioms.opp_spec.
  destruct (Prim2SF x); reflexivity.
Qed.

(** The filter looks at the size of the gap only: a stock is dropped or kept
    like the stock with the opposite gap, so gaps down are treated as gaps
    up. *)
Theorem filter_ignores_the_sign (ticker : string) (gap openingPrice : float64) :
  small_gap (Stock.mk ticker (PrimFloat.opp gap) openingPrice)
  = small_gap (Stock.mk ticker gap openingPrice).
Proof.
  unfold small_gap. cbn [Stock.Gap]. rewrite Abs_opp. reflexivity.
Qed.
